(** * kx-stripe runtime utilities: idempotency keys and tracking metadata

    A shallow embedding of
      - [utils/idempotency.ts]: [generateIdempotencyKey], [sortObjectKeys];
      - [utils/metadata.ts]: [createMetadata], [mergeMetadata];
    together with the parts of the JavaScript run time those functions lean
    on: strings as UTF-16 code units, ordinary objects with their own-key
    enumeration order, [JSON.stringify], [String(...)], the default
    [Array.prototype.sort] and Node's [createHash('sha256')].

    Value domain.  The parameter values are the structured data the
    functions are documented for: [undefined], [null], booleans, numbers,
    strings, arrays and plain objects.  Numbers are the doubles with an
    integral value (rendered in decimal, as amounts in cents are) and the
    three non-finite ones; the decimal rendering of fractional doubles is
    floating-point formatting and is left out.  Values are finite trees, so
    cyclic structures are excluded by construction.

    Engine.  The functions are given first for an engine without limits;
    [sortObjectKeys_run], [generateIdempotencyKey_run] and
    [createMetadata_run] then add the two limits a call can meet, the call
    stack and the greatest length of a string. *)

From Stdlib Require Import List NArith ZArith Arith Bool Lia String Ascii.
From Stdlib Require Import Permutation Sorted.
Import ListNotations.

Set Implicit Arguments.

(* ================================================================== *)
(** ** JavaScript strings *)

(** A JavaScript string is a sequence of UTF-16 code units; [length],
    [substring] and the comparison used by [sort] all work on code units. *)
Definition code_unit := N.
Definition jsstring := list code_unit.

(** Literals: an ASCII literal of the source, as code units. *)
Definition js (s : string) : jsstring :=
  map N_of_ascii (list_ascii_of_string s).

Fixpoint jsstring_eqb (s t : jsstring) : bool :=
  match s, t with
  | [], [] => true
  | c :: s', d :: t' => N.eqb c d && jsstring_eqb s' t'
  | _, _ => false
  end.

(** The order of the abstract relational comparison on strings, which the
    default [sort] uses: lexicographic on code units, a proper prefix first. *)
Fixpoint jsstring_leb (s t : jsstring) : bool :=
  match s, t with
  | [], _ => true
  | _ :: _, [] => false
  | c :: s', d :: t' =>
      match N.compare c d with
      | Lt => true
      | Gt => false
      | Eq => jsstring_leb s' t'
      end
  end.

(** [s.substring(0, n)] *)
Definition substring0 (s : jsstring) (n : nat) : jsstring := firstn n s.

(** *** Decimal and hexadecimal digits *)

Open Scope N_scope.

Definition digit_char (d : N) : code_unit := 48 + d.

Fixpoint uint_chars (d : Decimal.uint) : jsstring :=
  match d with
  | Decimal.Nil => []
  | Decimal.D0 r => digit_char 0 :: uint_chars r
  | Decimal.D1 r => digit_char 1 :: uint_chars r
  | Decimal.D2 r => digit_char 2 :: uint_chars r
  | Decimal.D3 r => digit_char 3 :: uint_chars r
  | Decimal.D4 r => digit_char 4 :: uint_chars r
  | Decimal.D5 r => digit_char 5 :: uint_chars r
  | Decimal.D6 r => digit_char 6 :: uint_chars r
  | Decimal.D7 r => digit_char 7 :: uint_chars r
  | Decimal.D8 r => digit_char 8 :: uint_chars r
  | Decimal.D9 r => digit_char 9 :: uint_chars r
  end.

(** Decimal rendering of a natural number, without leading zeros. *)
Definition N_to_decimal (n : N) : jsstring := uint_chars (N.to_uint n).

(** A lowercase hexadecimal digit. *)
Definition hex_char (d : N) : code_unit :=
  if d <? 10 then 48 + d else 87 + d.

Definition is_lower_hex (c : code_unit) : bool :=
  ((48 <=? c) && (c <=? 57)) || ((97 <=? c) && (c <=? 102)).

(** *** UTF-8 *)

Definition is_high_surrogate (c : code_unit) : bool :=
  (0xD800 <=? c) && (c <=? 0xDBFF).
Definition is_low_surrogate (c : code_unit) : bool :=
  (0xDC00 <=? c) && (c <=? 0xDFFF).

(** The bytes Node hashes for a string argument of [hash.update]: the UTF-8
    encoding, a surrogate pair giving one four-byte sequence and an unpaired
    surrogate the replacement character U+FFFD. *)
Fixpoint utf8_encode (s : jsstring) : list N :=
  match s with
  | [] => []
  | c :: rest =>
      if c <? 0x80 then c :: utf8_encode rest
      else if c <? 0x800 then
        (0xC0 + c / 64) :: (0x80 + c mod 64) :: utf8_encode rest
      else if is_high_surrogate c then
        match rest with
        | d :: rest' =>
            if is_low_surrogate d then
              let cp := 0x10000 + (c - 0xD800) * 0x400 + (d - 0xDC00) in
              (0xF0 + cp / 262144) :: (0x80 + (cp / 4096) mod 64)
                :: (0x80 + (cp / 64) mod 64) :: (0x80 + cp mod 64)
                :: utf8_encode rest'
            else 0xEF :: 0xBF :: 0xBD :: utf8_encode rest
        | [] => [0xEF; 0xBF; 0xBD]
        end
      else if is_low_surrogate c then
        0xEF :: 0xBF :: 0xBD :: utf8_encode rest
      else
        (0xE0 + c / 4096) :: (0x80 + (c / 64) mod 64) :: (0x80 + c mod 64)
          :: utf8_encode rest
  end.

Close Scope N_scope.

(* ================================================================== *)
(** ** SHA-256 (FIPS 180-4), as computed by [createHash('sha256')] *)

Module SHA256.

Local Open Scope N_scope.

Definition mask32 : N := 0xFFFFFFFF.
Definition add32 (x y : N) : N := N.land (x + y) mask32.
Definition rotr (n x : N) : N :=
  N.lor (N.shiftr x n) (N.land (N.shiftl x (32 - n)) mask32).
Definition not32 (x : N) : N := N.lxor x mask32.

Definition Ch (x y z : N) : N := N.lxor (N.land x y) (N.land (not32 x) z).
Definition Maj (x y z : N) : N :=
  N.lxor (N.lxor (N.land x y) (N.land x z)) (N.land y z).
Definition bsig0 (x : N) : N := N.lxor (N.lxor (rotr 2 x) (rotr 13 x)) (rotr 22 x).
Definition bsig1 (x : N) : N := N.lxor (N.lxor (rotr 6 x) (rotr 11 x)) (rotr 25 x).
Definition ssig0 (x : N) : N := N.lxor (N.lxor (rotr 7 x) (rotr 18 x)) (N.shiftr x 3).
Definition ssig1 (x : N) : N := N.lxor (N.lxor (rotr 17 x) (rotr 19 x)) (N.shiftr x 10).

Definition round_constants : list N :=
  [0x428A2F98; 0x71374491; 0xB5C0FBCF; 0xE9B5DBA5;
   0x3956C25B; 0x59F111F1; 0x923F82A4; 0xAB1C5ED5;
   0xD807AA98; 0x12835B01; 0x243185BE; 0x550C7DC3;
   0x72BE5D74; 0x80DEB1FE; 0x9BDC06A7; 0xC19BF174;
   0xE49B69C1; 0xEFBE4786; 0x0FC19DC6; 0x240CA1CC;
   0x2DE92C6F; 0x4A7484AA; 0x5CB0A9DC; 0x76F988DA;
   0x983E5152; 0xA831C66D; 0xB00327C8; 0xBF597FC7;
   0xC6E00BF3; 0xD5A79147; 0x06CA6351; 0x14292967;
   0x27B70A85; 0x2E1B2138; 0x4D2C6DFC; 0x53380D13;
   0x650A7354; 0x766A0ABB; 0x81C2C92E; 0x92722C85;
   0xA2BFE8A1; 0xA81A664B; 0xC24B8B70; 0xC76C51A3;
   0xD192E819; 0xD6990624; 0xF40E3585; 0x106AA070;
   0x19A4C116; 0x1E376C08; 0x2748774C; 0x34B0BCB5;
   0x391C0CB3; 0x4ED8AA4A; 0x5B9CCA4F; 0x682E6FF3;
   0x748F82EE; 0x78A5636F; 0x84C87814; 0x8CC70208;
   0x90BEFFFA; 0xA4506CEB; 0xBEF9A3F7; 0xC67178F2].

(** The eight chaining words. *)
Record state := State
  { sa : N; sb : N; sc : N; sd : N; se : N; sf : N; sg : N; sh : N }.

Definition initial_state : state :=
  State 0x6A09E667 0xBB67AE85 0x3C6EF372 0xA54FF53A
        0x510E527F 0x9B05688C 0x1F83D9AB 0x5BE0CD19.

(** Padding: the byte 0x80, zero bytes up to 56 modulo 64, and the bit
    length as a 64-bit big-endian number. *)
Definition be_bytes (count : nat) (n : N) : list N :=
  map (fun i => N.land (N.shiftr n (8 * N.of_nat (count - 1 - i)%nat)) 0xFF)
      (seq 0 count).

Definition pad (msg : list N) : list N :=
  let len := List.length msg in
  let zeros := ((64 - (len + 9) mod 64) mod 64)%nat in
  msg ++ 0x80 :: repeat 0 zeros ++ be_bytes 8 (8 * N.of_nat len).

Fixpoint be_words (bytes : list N) : list N :=
  match bytes with
  | b0 :: b1 :: b2 :: b3 :: rest =>
      (b0 * 16777216 + b1 * 65536 + b2 * 256 + b3) :: be_words rest
  | _ => []
  end.

(** The message schedule, kept newest word first: [extend_schedule n w]
    appends [n] words to the reversed schedule [w]. *)
Fixpoint extend_schedule (n : nat) (w : list N) : list N :=
  match n with
  | O => w
  | S n' =>
      let wt := add32 (add32 (add32 (ssig1 (nth 1 w 0)) (nth 6 w 0))
                             (ssig0 (nth 14 w 0))) (nth 15 w 0) in
      extend_schedule n' (wt :: w)
  end.

Definition schedule (block : list N) : list N :=
  rev (extend_schedule 48 (rev block)).

Definition round (s : state) (kw : N * N) : state :=
  let t1 := add32 (add32 (add32 (add32 (sh s) (bsig1 (se s)))
                                (Ch (se s) (sf s) (sg s))) (fst kw)) (snd kw) in
  let t2 := add32 (bsig0 (sa s)) (Maj (sa s) (sb s) (sc s)) in
  State (add32 t1 t2) (sa s) (sb s) (sc s) (add32 (sd s) t1) (se s) (sf s) (sg s).

Definition compress (h : state) (block : list N) : state :=
  let s := fold_left round (combine round_constants (schedule block)) h in
  State (add32 (sa h) (sa s)) (add32 (sb h) (sb s)) (add32 (sc h) (sc s))
        (add32 (sd h) (sd s)) (add32 (se h) (se s)) (add32 (sf h) (sf s))
        (add32 (sg h) (sg s)) (add32 (sh h) (sh s)).

(** One 16-word block per step; [fuel] counts the blocks. *)
Fixpoint process (fuel : nat) (h : state) (words : list N) : state :=
  match fuel with
  | O => h
  | S fuel' => process fuel' (compress h (firstn 16 words)) (skipn 16 words)
  end.

Definition digest (msg : list N) : state :=
  let words := be_words (pad msg) in
  process (List.length words / 16) initial_state words.

(** Eight lowercase hexadecimal digits of a 32-bit word. *)
Definition word_hex (w : N) : jsstring :=
  map (fun i => hex_char (N.land (N.shiftr w (4 * N.of_nat (7 - i)%nat)) 0xF))
      (seq 0 8).

(** [.digest('hex')] *)
Definition digest_hex (msg : list N) : jsstring :=
  let s := digest msg in
  word_hex (sa s) ++ word_hex (sb s) ++ word_hex (sc s) ++ word_hex (sd s) ++
  word_hex (se s) ++ word_hex (sf s) ++ word_hex (sg s) ++ word_hex (sh s).

End SHA256.

(* ================================================================== *)
(** ** Values *)

(** Numbers: a double with an integral value, or one of the non-finite ones. *)
Inductive number :=
| Num_int (z : Z)
| Num_NaN
| Num_PosInf
| Num_NegInf.

Definition Number_isFinite (n : number) : bool :=
  match n with Num_int _ => true | _ => false end.

(** [Number::toString] in radix 10, for the integers a double holds
    exactly (up to 2^53 in magnitude), which are printed with all their
    digits. *)
Definition Number_toString (n : number) : jsstring :=
  match n with
  | Num_int z =>
      if (z <? 0)%Z then js "-" ++ N_to_decimal (Z.abs_N z)
      else N_to_decimal (Z.abs_N z)
  | Num_NaN => js "NaN"
  | Num_PosInf => js "Infinity"
  | Num_NegInf => js "-Infinity"
  end.

(** The own enumerable string-keyed properties of an ordinary object, listed
    in the order of [[OwnPropertyKeys]]: that is the order in which
    [Object.keys], [Object.entries], [Object.assign] and [JSON.stringify]
    visit them. *)
Definition obj (A : Type) := list (jsstring * A).

#[local] Unset Elimination Schemes.
Inductive value :=
| VUndefined
| VNull
| VBool (b : bool)
| VNumber (n : number)
| VString (s : jsstring)
| VArray (elems : list value)
| VObject (props : obj value).
#[local] Set Elimination Schemes.

(** Thrown exceptions; the functions below can only meet a [TypeError]. *)
Inductive js_error := TypeError.

Inductive completion (A : Type) :=
| Normal (a : A)
| Throw (e : js_error).
Arguments Throw {A} e.

Definition bind {A B} (c : completion A) (k : A -> completion B) : completion B :=
  match c with
  | Normal a => k a
  | Throw e => Throw e
  end.

Notation "x <- c ;; k" := (bind c (fun x => k))
  (at level 61, c at next level, right associativity).

(* ================================================================== *)
(** ** Ordinary objects *)

Definition Object_keys {A} (o : obj A) : list jsstring := map fst o.
Definition Object_entries {A} (o : obj A) : list (jsstring * A) := o.

(** [o[k]] for an own property; [None] when [o] has no such own property. *)
Fixpoint obj_get {A} (o : obj A) (k : jsstring) : option A :=
  match o with
  | [] => None
  | (k', v) :: o' => if jsstring_eqb k' k then Some v else obj_get o' k
  end.

Definition obj_has {A} (o : obj A) (k : jsstring) : bool :=
  match obj_get o k with Some _ => true | None => false end.

(** The read [o[k]] of a value: [undefined] when there is no such property. *)
Definition Get (o : obj value) (k : jsstring) : value :=
  match obj_get o k with Some v => v | None => VUndefined end.

Definition digit_value (c : code_unit) : option N :=
  if ((48 <=? c) && (c <=? 57))%N then Some (c - 48)%N else None.

Fixpoint parse_decimal (acc : N) (s : jsstring) : option N :=
  match s with
  | [] => Some acc
  | c :: s' =>
      match digit_value c with
      | Some d => parse_decimal (10 * acc + d)%N s'
      | None => None
      end
  end.

(** An array index is a key that is the canonical decimal rendering of an
    integer from 0 to 2^32 - 2. *)
Definition array_index (k : jsstring) : option N :=
  match parse_decimal 0 k with
  | Some n =>
      if jsstring_eqb (N_to_decimal n) k && (n <? 4294967295)%N
      then Some n else None
  | None => None
  end.

(** [enum_before k k']: a new key [k] is enumerated before the existing key
    [k'].  Array indices come first, in ascending numeric order; every other
    key follows in the order of its creation. *)
Definition enum_before (k k' : jsstring) : bool :=
  match array_index k, array_index k' with
  | Some i, Some j => (i <? j)%N
  | Some _, None => true
  | None, _ => false
  end.

(** [CreateDataProperty]: an existing own property keeps its place and takes
    the new value, a new one is placed by [enum_before]. *)
Fixpoint obj_define {A} (o : obj A) (k : jsstring) (v : A) : obj A :=
  match o with
  | [] => [(k, v)]
  | (k', v') :: o' =>
      if jsstring_eqb k k' then (k, v) :: o'
      else if enum_before k k' then (k, v) :: (k', v') :: o'
      else (k', v') :: obj_define o' k v
  end.

Definition proto_key : jsstring := js "__proto__".

(** The assignment [o[k] = v] on an object made by [{}], whose own properties
    are writable data properties.  The key [__proto__] reaches the accessor
    inherited from [Object.prototype]: the assignment then changes the
    prototype (for an object or [null]) or does nothing, and creates no own
    property; a changed prototype is seen neither by [JSON.stringify], which
    reads own properties, nor by a later assignment to another key.  Below, an
    object is assigned [__proto__] with strings only, or once at most (the
    keys of an object are distinct), so the accessor is still inherited when
    the assignment is made. *)
Definition obj_set {A} (o : obj A) (k : jsstring) (v : A) : obj A :=
  if jsstring_eqb k proto_key then o else obj_define o k v.

(** [Object.fromEntries] *)
Definition Object_fromEntries {A} (entries : list (jsstring * A)) : obj A :=
  fold_left (fun o e => obj_define o (fst e) (snd e)) entries [].

(** [Object.assign(target, source)] *)
Definition Object_assign {A} (target source : obj A) : obj A :=
  fold_left (fun o e => obj_set o (fst e) (snd e)) (Object_entries source) target.

(** Insertion sort by a boolean order.  A sort by a total order has one
    result whatever the algorithm, so this also stands for the engine's. *)
Section InsertionSort.
Context {A : Type} (leb : A -> A -> bool).

Fixpoint insert_by (a : A) (l : list A) : list A :=
  match l with
  | [] => [a]
  | h :: t => if leb a h then a :: l else h :: insert_by a t
  end.

Fixpoint sort_by (l : list A) : list A :=
  match l with
  | [] => []
  | h :: t => insert_by h (sort_by t)
  end.
End InsertionSort.

(** The default [Array.prototype.sort] on strings. *)
Definition Array_sort (l : list jsstring) : list jsstring :=
  sort_by jsstring_leb l.

(* ================================================================== *)
(** ** [String(value)] and [JSON.stringify(value)] *)

Fixpoint join_with (sep : jsstring) (parts : list jsstring) : jsstring :=
  match parts with
  | [] => []
  | [p] => p
  | p :: rest => p ++ sep ++ join_with sep rest
  end.

(** [ToString].  A plain object answers through [Object.prototype.toString]
    unless it has an own property [toString]: that one, not being callable,
    is skipped, [valueOf] returns the object itself, and the conversion ends
    in a [TypeError].  An array joins the conversions of its elements, with
    [undefined] and [null] rendered empty. *)
Fixpoint ToString (v : value) : completion jsstring :=
  match v with
  | VUndefined => Normal (js "undefined")
  | VNull => Normal (js "null")
  | VBool b => Normal (if b then js "true" else js "false")
  | VNumber n => Normal (Number_toString n)
  | VString s => Normal s
  | VArray elems =>
      let fix parts (l : list value) : completion (list jsstring) :=
        match l with
        | [] => Normal []
        | e :: l' =>
            s <- match e with
                 | VUndefined | VNull => Normal []
                 | _ => ToString e
                 end ;;
            r <- parts l' ;;
            Normal (s :: r)
        end in
      ps <- parts elems ;;
      Normal (join_with (js ",") ps)
  | VObject props =>
      if obj_has props (js "toString") then Throw TypeError
      else Normal (js "[object Object]")
  end.

Definition unicode_escape (c : code_unit) : jsstring :=
  js "\u" ++ map (fun i => hex_char (N.land (N.shiftr c (4 * N.of_nat (3 - i))) 0xF))
                 (seq 0 4).

(** The characters between the quotes of [QuoteJSONString]. *)
Fixpoint quote_chars (s : jsstring) : jsstring :=
  match s with
  | [] => []
  | c :: rest =>
      if (c =? 8)%N then js "\b" ++ quote_chars rest
      else if (c =? 9)%N then js "\t" ++ quote_chars rest
      else if (c =? 10)%N then js "\n" ++ quote_chars rest
      else if (c =? 12)%N then js "\f" ++ quote_chars rest
      else if (c =? 13)%N then js "\r" ++ quote_chars rest
      else if (c =? 34)%N then 92%N :: 34%N :: quote_chars rest
      else if (c =? 92)%N then 92%N :: 92%N :: quote_chars rest
      else if (c <? 32)%N then unicode_escape c ++ quote_chars rest
      else if is_high_surrogate c then
        match rest with
        | d :: rest' =>
            if is_low_surrogate d then c :: d :: quote_chars rest'
            else unicode_escape c ++ quote_chars rest
        | [] => unicode_escape c
        end
      else if is_low_surrogate c then unicode_escape c ++ quote_chars rest
      else c :: quote_chars rest
  end.

Definition QuoteJSONString (s : jsstring) : jsstring :=
  34%N :: quote_chars s ++ [34%N].

(** [SerializeJSONProperty] without indentation; [None] stands for the
    result [undefined].  An array element without a serialization is written
    [null], an object property without one is left out. *)
Fixpoint JSON_serialize (v : value) : option jsstring :=
  match v with
  | VUndefined => None
  | VNull => Some (js "null")
  | VBool b => Some (if b then js "true" else js "false")
  | VNumber n => Some (if Number_isFinite n then Number_toString n else js "null")
  | VString s => Some (QuoteJSONString s)
  | VArray elems =>
      let element e :=
        match JSON_serialize e with Some s => s | None => js "null" end in
      Some (js "[" ++ join_with (js ",") (map element elems) ++ js "]")
  | VObject props =>
      let fix members (ps : obj value) : list jsstring :=
        match ps with
        | [] => []
        | (k, e) :: ps' =>
            match JSON_serialize e with
            | Some s => (QuoteJSONString k ++ js ":" ++ s) :: members ps'
            | None => members ps'
            end
        end in
      Some (js "{" ++ join_with (js ",") (members props) ++ js "}")
  end.

Definition JSON_stringify (v : value) : option jsstring := JSON_serialize v.

(** A substitution [${x}] of a template literal: [ToString] of a string or
    of [undefined]. *)
Definition template_subst (x : option jsstring) : jsstring :=
  match x with
  | Some s => s
  | None => js "undefined"
  end.

(* ================================================================== *)
(** ** utils/idempotency.ts *)

(** [sortObjectKeys].  The read [obj[key]] and the recursive call on it are
    one local function, [sorted_at], so that the recursion is structural;
    [sortObjectKeys_object] below states the body as the source has it. *)
Fixpoint sortObjectKeys (o : value) : value :=
  match o with
  | VArray elems => VArray (map sortObjectKeys elems)
  | VObject props =>
      let fix sorted_at (ps : obj value) (key : jsstring) : value :=
        match ps with
        | [] => VUndefined
        | (k, v) :: ps' =>
            if jsstring_eqb k key then sortObjectKeys v else sorted_at ps' key
        end in
      VObject (fold_left (fun sorted key => obj_set sorted key (sorted_at props key))
                         (Array_sort (Object_keys props)) [])
  | _ => o
  end.

(** [generateIdempotencyKey].  On the values of this embedding none of its
    steps throws a [TypeError]: [JSON.stringify] throws one on a [BigInt]
    and on a cyclic structure only, and the template literal converts a
    string or [undefined].  The [RangeError] of an exhausted stack or of a
    string that is too long is that of [generateIdempotencyKey_run]. *)
Definition generateIdempotencyKey (operation : jsstring) (params : value) : jsstring :=
  let sortedParams := sortObjectKeys params in
  let paramsString := JSON_stringify sortedParams in
  let hash :=
    substring0
      (SHA256.digest_hex
         (utf8_encode (operation ++ js ":" ++ template_subst paramsString)))
      32 in
  operation ++ js "-" ++ hash.

(* ================================================================== *)
(** ** utils/metadata.ts *)

(** [list.forEach(f)] with a callback that updates a local object and may
    throw. *)
Fixpoint forEach {A S} (f : S -> A -> completion S) (l : list A) (s : S)
  : completion S :=
  match l with
  | [] => Normal s
  | a :: l' => s' <- f s a ;; forEach f l' s'
  end.

Definition is_nullish (v : value) : bool :=
  match v with
  | VUndefined | VNull => true
  | _ => false
  end.

(** The property read [filtered[key]] followed by [.length]: a [TypeError]
    on [undefined]. *)
Definition read_string (o : obj jsstring) (key : jsstring) : completion jsstring :=
  match obj_get o key with
  | Some s => Normal s
  | None => Throw TypeError
  end.

(** The callback of the first [forEach]: an entry that is neither
    [undefined] nor [null] is stored with the string form of its value. *)
Definition keep_defined (filtered : obj jsstring) (e : jsstring * value)
  : completion (obj jsstring) :=
  let '(key, value) := e in
  if negb (is_nullish value) then
    s <- ToString value ;;
    Normal (obj_set filtered key s)
  else Normal filtered.

(** The callback of the second [forEach]: key and value cut to 40 and 500
    code units. *)
Definition truncate_entry (filtered sanitized : obj jsstring) (key : jsstring)
  : completion (obj jsstring) :=
  let sanitizedKey :=
    if 40 <? List.length key then substring0 key 40 else key in
  fv <- read_string filtered key ;;
  let sanitizedValue :=
    if 500 <? List.length fv then substring0 fv 500 else fv in
  Normal (obj_set sanitized sanitizedKey sanitizedValue).

(** [createMetadata].  The [console.warn] of the truncating branch writes to
    the console only and is not part of the result. *)
Definition createMetadata (metadata : obj value) : completion (obj jsstring) :=
  filtered <- forEach keep_defined (Object_entries metadata) [] ;;
  let keys := Object_keys filtered in
  if 50 <? List.length keys then
    Normal (Object_fromEntries (firstn 50 (Object_entries filtered)))
  else
    forEach (truncate_entry filtered) keys [].

(** A [Record<string, string>] seen as a [StandardMetadata]. *)
Definition strings (m : obj jsstring) : obj value :=
  map (fun e => (fst e, VString (snd e))) m.

(** The [forEach] of [mergeMetadata], from a given state of the local
    [merged]; an argument [undefined] is skipped. *)
Definition merge_from (merged : obj jsstring)
           (metadataObjects : list (option (obj jsstring))) : obj jsstring :=
  fold_left (fun merged meta =>
               match meta with
               | Some m => Object_assign merged m
               | None => merged
               end)
            metadataObjects merged.

(** The local [merged] after the [forEach]. *)
Definition merged_of (metadataObjects : list (option (obj jsstring))) : obj jsstring :=
  merge_from [] metadataObjects.

Definition mergeMetadata (metadataObjects : list (option (obj jsstring)))
  : completion (obj jsstring) :=
  createMetadata (strings (merged_of metadataObjects)).

(* ================================================================== *)
(** ** Notions used by the statements *)

(** Keys are distinct in every mapping of a value: the representation
    invariant of objects. *)
Fixpoint distinctb (l : list jsstring) : bool :=
  match l with
  | [] => true
  | k :: l' => negb (existsb (jsstring_eqb k) l') && distinctb l'
  end.

Fixpoint well_formed (v : value) : bool :=
  match v with
  | VArray elems => forallb well_formed elems
  | VObject props =>
      distinctb (map fst props) && forallb (fun e => well_formed (snd e)) props
  | _ => true
  end.

(** The keys of an object made by assignments, in own-key order: distinct,
    no [__proto__], and no key enumerated before an earlier one. *)
Definition own_key_order (keys : list jsstring) : Prop :=
  StronglySorted (fun k1 k2 => enum_before k2 k1 = false) keys
  /\ NoDup keys /\ ~ In proto_key keys.

Fixpoint own_key_orderb (keys : list jsstring) : bool :=
  match keys with
  | [] => true
  | k :: rest =>
      forallb (fun k' => negb (enum_before k' k)) rest
      && negb (existsb (jsstring_eqb k) rest)
      && negb (jsstring_eqb k proto_key)
      && own_key_orderb rest
  end.

(** *** Canonical forms *)

(** The order of the keys of a canonicalized mapping as the code produces
    it: array indices first, by numeric value, then the other keys by code
    units. *)
Definition canon_leb (k1 k2 : jsstring) : bool :=
  match array_index k1, array_index k2 with
  | Some i, Some j => (i <=? j)%N
  | Some _, None => true
  | None, Some _ => false
  | None, None => jsstring_leb k1 k2
  end.

Definition entry_leb {A} (leb : jsstring -> jsstring -> bool) (e1 e2 : jsstring * A) : bool :=
  leb (fst e1) (fst e2).

Definition not_proto {A} (e : jsstring * A) : bool :=
  negb (jsstring_eqb (fst e) proto_key).

Definition key_not_proto (k : jsstring) : bool := negb (jsstring_eqb k proto_key).

Fixpoint own_key_canonical (v : value) : value :=
  match v with
  | VArray elems => VArray (map own_key_canonical elems)
  | VObject props =>
      VObject (sort_by (entry_leb canon_leb)
                 (filter not_proto
                    (map (fun e => (fst e, own_key_canonical (snd e))) props)))
  | _ => v
  end.

(** The canonicalization in the specification's words: the keys of a mapping
    in ascending lexicographic order, values canonicalized recursively;
    sequences element by element in their order; other values unchanged. *)
Fixpoint spec_canonicalize (v : value) : value :=
  match v with
  | VArray elems => VArray (map spec_canonicalize elems)
  | VObject props =>
      VObject (sort_by (entry_leb jsstring_leb)
                 (map (fun e => (fst e, spec_canonicalize (snd e))) props))
  | _ => v
  end.

(** No key of a mapping, at any depth, is an array index or [__proto__]. *)
Definition plain_key (k : jsstring) : bool :=
  match array_index k with
  | Some _ => false
  | None => negb (jsstring_eqb k proto_key)
  end.

Fixpoint plain_keys (v : value) : bool :=
  match v with
  | VArray elems => forallb plain_keys elems
  | VObject props =>
      forallb (fun e => plain_key (fst e) && plain_keys (snd e)) props
  | _ => true
  end.

(** The key over a given canonicalization: the operation, a dash and the
    first 32 hexadecimal digits of the digest of operation, colon and
    serialized canonical parameters. *)
Definition key_of (canon : value -> value) (operation : jsstring) (params : value)
  : jsstring :=
  operation ++ js "-" ++
  firstn 32 (SHA256.digest_hex
               (utf8_encode
                  (operation ++ js ":" ++ template_subst (JSON_serialize (canon params))))).

Definition spec_key : jsstring -> value -> jsstring := key_of spec_canonicalize.

(** The members of a serialized object, as a function of its own. *)
Fixpoint JSON_members (ps : obj value) : list jsstring :=
  match ps with
  | [] => []
  | (k, e) :: ps' =>
      match JSON_serialize e with
      | Some s => (QuoteJSONString k ++ js ":" ++ s) :: JSON_members ps'
      | None => JSON_members ps'
      end
  end.

(** Two values with the same properties: equal up to the order in which the
    properties of their mappings, at any depth, are listed. *)
#[local] Unset Elimination Schemes.
Inductive permuted : value -> value -> Prop :=
| permuted_same v : permuted v v
| permuted_array l l' :
    Forall2 permuted l l' -> permuted (VArray l) (VArray l')
| permuted_object ps qs qs' :
    Forall2 (fun e e' => fst e = fst e' /\ permuted (snd e) (snd e')) ps qs ->
    Permutation qs qs' ->
    permuted (VObject ps) (VObject qs').
#[local] Set Elimination Schemes.

(** *** Metadata *)

(** The three limits of the provider. *)
Definition within_limits (m : obj jsstring) : bool :=
  (List.length m <=? 50)
  && forallb (fun e => (List.length (fst e) <=? 40) && (List.length (snd e) <=? 500)) m.

(** Step 1 of the sanitizer in the specification's words: the entries whose
    value is absent or null are dropped, the others keep their key and take
    the string form of their value. *)
Fixpoint spec_filter_coerce (m : obj value) : completion (obj jsstring) :=
  match m with
  | [] => Normal []
  | (k, v) :: m' =>
      if is_nullish v then spec_filter_coerce m'
      else
        s <- ToString v ;;
        r <- spec_filter_coerce m' ;;
        Normal ((k, s) :: r)
  end.

(** The values [String] converts without an exception: no object with an
    own property [toString], also below arrays. *)
Fixpoint stringable (v : value) : bool :=
  match v with
  | VArray elems => forallb stringable elems
  | VObject props => negb (obj_has props (js "toString"))
  | _ => true
  end.

(** The element conversions of [Array.prototype.join], as a function of
    its own. *)
Fixpoint join_parts (l : list value) : completion (list jsstring) :=
  match l with
  | [] => Normal []
  | e :: l' =>
      s <- match e with
           | VUndefined | VNull => Normal []
           | _ => ToString e
           end ;;
      r <- join_parts l' ;;
      Normal (s :: r)
  end.

(** The cuts of [truncate_entry]. *)
Definition cut (n : nat) (s : jsstring) : jsstring :=
  if n <? List.length s then substring0 s n else s.

Definition truncated (e : jsstring * jsstring) : jsstring * jsstring :=
  (cut 40 (fst e), cut 500 (snd e)).

(** A mapping of [n] entries k0 ... k(n-1), each with the value [v]. *)
Definition numbered_entries (n : nat) (v : value) : obj value :=
  map (fun i => (js "k" ++ N_to_decimal (N.of_nat i), v)) (seq 0 n).

(** An argument of [mergeMetadata] that does not have the key [k]. *)
Definition lacks (k : jsstring) (meta : option (obj jsstring)) : bool :=
  match meta with
  | Some m => negb (obj_has m k)
  | None => true
  end.

(** An input of 51 entries whose first entry has a key of 41 characters and
    a value of 501 characters. *)
Definition oversized_metadata : obj value :=
  (repeat 107%N 41, VString (repeat 118%N 501))
    :: numbered_entries 50 (VString (js "1")).

(** ** Induction on values *)

Section ValueInduction.
Variable P : value -> Prop.
Hypothesis P_undefined : P VUndefined.
Hypothesis P_null : P VNull.
Hypothesis P_bool : forall b, P (VBool b).
Hypothesis P_number : forall n, P (VNumber n).
Hypothesis P_string : forall s, P (VString s).
Hypothesis P_array : forall elems, Forall P elems -> P (VArray elems).
Hypothesis P_object :
  forall props, Forall (fun e => P (snd e)) props -> P (VObject props).

Fixpoint value_ind (v : value) : P v :=
  match v with
  | VUndefined => P_undefined
  | VNull => P_null
  | VBool b => P_bool b
  | VNumber n => P_number n
  | VString s => P_string s
  | VArray elems =>
      P_array
        ((fix all (l : list value) : Forall P l :=
            match l with
            | [] => Forall_nil P
            | e :: l' => Forall_cons e (value_ind e) (all l')
            end) elems)
  | VObject props =>
      P_object
        ((fix all (l : obj value) : Forall (fun e => P (snd e)) l :=
            match l with
            | [] => Forall_nil _
            | e :: l' => Forall_cons e (value_ind (snd e)) (all l')
            end) props)
  end.
End ValueInduction.

(* ================================================================== *)
(** ** Truthiness and property reads *)

(** [ToBoolean] *)
Definition ToBoolean (v : value) : bool :=
  match v with
  | VUndefined | VNull => false
  | VBool b => b
  | VNumber (Num_int z) => negb (z =? 0)%Z
  | VNumber Num_NaN => false
  | VNumber _ => true
  | VString [] => false
  | VString _ => true
  | VArray _ | VObject _ => true
  end.

(** The property read on a value that is neither [undefined] nor [null],
    for the keys read in these modules ([tenantId], [headers], [type],
    ...): none of them is an array index, [length] or a member of a
    built-in prototype, so the read finds an own property of an object and
    nothing on any other value. *)
Definition read_field (v : value) (k : jsstring) : value :=
  match v with
  | VObject props => Get props k
  | _ => VUndefined
  end.

(** [v.k]: a [TypeError] on [undefined] and [null]. *)
Definition member (v : value) (k : jsstring) : completion value :=
  if is_nullish v then Throw TypeError else Normal (read_field v k).

(** [v?.k]: [undefined] on [undefined] and [null]. *)
Definition optional_member (v : value) (k : jsstring) : value :=
  if is_nullish v then VUndefined else read_field v k.

(** [v === s] for a string literal [s]. *)
Definition strict_equals_string (v : value) (s : jsstring) : bool :=
  match v with
  | VString t => jsstring_eqb t s
  | _ => false
  end.

(** *** utils/metadata.ts, the extractors *)

(** [metadata.primary || metadata.alternate || null], after the guard
    [!metadata]. *)
Definition extract_field (primary alternate : jsstring) (metadata : value)
  : completion value :=
  if negb (ToBoolean metadata) then Normal VNull
  else
    a <- member metadata primary ;;
    if ToBoolean a then Normal a
    else
      b <- member metadata alternate ;;
      if ToBoolean b then Normal b else Normal VNull.

Definition extractTenantId (metadata : value) : completion value :=
  extract_field (js "tenantId") (js "tenant_id") metadata.

Definition extractUserId (metadata : value) : completion value :=
  extract_field (js "userId") (js "user_id") metadata.

(** *** utils/idempotency.ts, the error helpers *)

Definition idempotency_header : jsstring := js "idempotency-key".

Definition extractIdempotencyKeyFromError (error : value) : completion value :=
  if ToBoolean (optional_member (optional_member error (js "headers"))
                                idempotency_header)
  then
    h <- member error (js "headers") ;;
    member h idempotency_header
  else if ToBoolean
            (optional_member
               (optional_member (optional_member error (js "raw")) (js "headers"))
               idempotency_header)
  then
    r <- member error (js "raw") ;;
    h <- member r (js "headers") ;;
    member h idempotency_header
  else Normal VNull.

Definition isIdempotencyError (error : value) : completion bool :=
  if negb (ToBoolean (optional_member error (js "type"))) then Normal false
  else
    t <- member error (js "type") ;;
    if strict_equals_string t (js "idempotency_error") then Normal true
    else
      c <- member error (js "code") ;;
      Normal (strict_equals_string c (js "idempotency_key_in_use")).

(** The result of an extractor after the values were cut to 500
    characters. *)
Definition cut_result (r : completion value) : completion value :=
  match r with
  | Normal (VString s) => Normal (VString (cut 500 s))
  | _ => r
  end.

(** Two properties with the same key and the same JSON text. *)
Definition same_member (e e' : jsstring * value) : Prop :=
  fst e = fst e' /\ JSON_serialize (snd e) = JSON_serialize (snd e').

(* ================================================================== *)
(** ** The limits of the engine *)

(** The functions above are those of an engine without limits.  An engine
    has two limits that a call of these functions can meet, and each ends
    the call with a [RangeError]: the call stack, which the recursion over a
    deeply nested value exhausts, and the greatest length of a string.

    The stack is counted in units.  [stack] is what is left for nested calls
    when one of the exported functions is entered (the frames of the calls
    that do not nest are set aside), and [frame s] is what one nesting at
    the site [s] takes; an engine that walks a structure without recursion
    has a frame of 0 there.  The greatest length bounds the strings built by
    a concatenation (a template literal, a join, the text of
    [JSON.stringify]); the strings of a bounded length (the digest, the text
    of a number, the constants) are within it on every engine. *)
Inductive site :=
| call_sortObjectKeys   (* a call of [sortObjectKeys] *)
| call_map              (* [obj.map(...)], around the calls for the elements *)
| call_forEach          (* [Object.keys(obj).sort().forEach(...)] and its
                           callback, around the calls for the properties *)
| JSON_array            (* an array inside [JSON.stringify] *)
| JSON_object           (* an object inside [JSON.stringify] *)
| call_join.            (* an array inside [String(value)] *)

Record engine := Engine
  { stack : nat;
    frame : site -> nat;
    max_string_length : nat }.

Inductive js_exception :=
| Exception (e : js_error)
| RangeError.

Inductive ended (A : Type) :=
| Returned (a : A)
| Raised (x : js_exception).
Arguments Raised {A} x.

Definition and_then {A B} (c : ended A) (k : A -> ended B) : ended B :=
  match c with
  | Returned a => k a
  | Raised x => Raised x
  end.

Notation "x <== c ;; k" := (and_then c (fun x => k))
  (at level 61, c at next level, right associativity).

Definition lift {A} (c : completion A) : ended A :=
  match c with
  | Normal a => Returned a
  | Throw e => Raised (Exception e)
  end.

(** A nesting at the site [s] with [left] units of stack left. *)
Definition enter (E : engine) (s : site) (left : nat) : ended nat :=
  if left <? frame E s then Raised RangeError else Returned (left - frame E s).

(** A string built by a concatenation. *)
Definition new_string (E : engine) (s : jsstring) : ended jsstring :=
  if max_string_length E <? List.length s then Raised RangeError else Returned s.

Fixpoint forEach_run {A S} (f : S -> A -> ended S) (l : list A) (s : S) : ended S :=
  match l with
  | [] => Returned s
  | a :: l' => s' <== f s a ;; forEach_run f l' s'
  end.

(** *** utils/idempotency.ts *)

(** [sortObjectKeys], with the stack that is left.  As in [sortObjectKeys]
    the read [obj[key]] and the call on it are one local function; its first
    case is not reached, the keys being those of the object. *)
Fixpoint sortObjectKeys_run (E : engine) (left : nat) (o : value) {struct o}
  : ended value :=
  left <== enter E call_sortObjectKeys left ;;
  match o with
  | VArray elems =>
      left <== enter E call_map left ;;
      let fix mapped (l : list value) : ended (list value) :=
        match l with
        | [] => Returned []
        | e :: l' =>
            e' <== sortObjectKeys_run E left e ;;
            r <== mapped l' ;;
            Returned (e' :: r)
        end in
      r <== mapped elems ;;
      Returned (VArray r)
  | VObject props =>
      left <== enter E call_forEach left ;;
      let fix sorted_at (ps : obj value) (key : jsstring) : ended value :=
        match ps with
        | [] => Returned VUndefined
        | (k, v) :: ps' =>
            if jsstring_eqb k key then sortObjectKeys_run E left v
            else sorted_at ps' key
        end in
      sorted <== forEach_run
                   (fun sorted key =>
                      v <== sorted_at props key ;;
                      Returned (obj_set sorted key v))
                   (Array_sort (Object_keys props)) [] ;;
      Returned (VObject sorted)
  | _ => Returned o
  end.

Fixpoint JSON_serialize_run (E : engine) (left : nat) (v : value) {struct v}
  : ended (option jsstring) :=
  match v with
  | VArray elems =>
      left <== enter E JSON_array left ;;
      let fix elements (l : list value) : ended (list jsstring) :=
        match l with
        | [] => Returned []
        | e :: l' =>
            s <== JSON_serialize_run E left e ;;
            r <== elements l' ;;
            Returned (match s with Some s => s | None => js "null" end :: r)
        end in
      ps <== elements elems ;;
      Returned (Some (js "[" ++ join_with (js ",") ps ++ js "]"))
  | VObject props =>
      left <== enter E JSON_object left ;;
      let fix members (ps : obj value) : ended (list jsstring) :=
        match ps with
        | [] => Returned []
        | (k, e) :: ps' =>
            s <== JSON_serialize_run E left e ;;
            r <== members ps' ;;
            Returned (match s with
                      | Some s => (QuoteJSONString k ++ js ":" ++ s) :: r
                      | None => r
                      end)
        end in
      ms <== members props ;;
      Returned (Some (js "{" ++ join_with (js ",") ms ++ js "}"))
  | _ => Returned (JSON_serialize v)
  end.

Definition JSON_stringify_run (E : engine) (v : value) : ended (option jsstring) :=
  r <== JSON_serialize_run E (stack E) v ;;
  match r with
  | Some s => s' <== new_string E s ;; Returned (Some s')
  | None => Returned None
  end.

Definition generateIdempotencyKey_run (E : engine) (operation : jsstring)
           (params : value) : ended jsstring :=
  sortedParams <== sortObjectKeys_run E (stack E) params ;;
  paramsString <== JSON_stringify_run E sortedParams ;;
  text <== new_string E (operation ++ js ":" ++ template_subst paramsString) ;;
  let hash := substring0 (SHA256.digest_hex (utf8_encode text)) 32 in
  new_string E (operation ++ js "-" ++ hash).

(** *** utils/metadata.ts *)

Fixpoint ToString_run (E : engine) (left : nat) (v : value) {struct v}
  : ended jsstring :=
  match v with
  | VArray elems =>
      left <== enter E call_join left ;;
      let fix parts (l : list value) : ended (list jsstring) :=
        match l with
        | [] => Returned []
        | e :: l' =>
            s <== match e with
                  | VUndefined | VNull => Returned []
                  | _ => ToString_run E left e
                  end ;;
            r <== parts l' ;;
            Returned (s :: r)
        end in
      ps <== parts elems ;;
      new_string E (join_with (js ",") ps)
  | _ => lift (ToString v)
  end.

Definition keep_defined_run (E : engine) (filtered : obj jsstring)
           (e : jsstring * value) : ended (obj jsstring) :=
  let '(key, value) := e in
  if negb (is_nullish value) then
    s <== ToString_run E (stack E) value ;;
    Returned (obj_set filtered key s)
  else Returned filtered.

Definition createMetadata_run (E : engine) (metadata : obj value)
  : ended (obj jsstring) :=
  filtered <== forEach_run (keep_defined_run E) (Object_entries metadata) [] ;;
  let keys := Object_keys filtered in
  if 50 <? List.length keys then
    Returned (Object_fromEntries (firstn 50 (Object_entries filtered)))
  else
    lift (forEach (truncate_entry filtered) keys []).

(** *** What a value needs of the engine *)

(** The stack the recursions take on a value. *)
Fixpoint sort_stack (E : engine) (o : value) : nat :=
  frame E call_sortObjectKeys
  + match o with
    | VArray elems => frame E call_map + list_max (map (sort_stack E) elems)
    | VObject props =>
        frame E call_forEach
        + list_max (map (fun e => sort_stack E (snd e)) props)
    | _ => 0
    end.

Fixpoint JSON_stack (E : engine) (v : value) : nat :=
  match v with
  | VArray elems => frame E JSON_array + list_max (map (JSON_stack E) elems)
  | VObject props =>
      frame E JSON_object + list_max (map (fun e => JSON_stack E (snd e)) props)
  | _ => 0
  end.

Fixpoint join_stack (E : engine) (v : value) : nat :=
  match v with
  | VArray elems => frame E call_join + list_max (map (join_stack E) elems)
  | _ => 0
  end.

(** The parameters [generateIdempotencyKey] has the stack and the strings
    for: the nesting of the value, the text that is hashed and the key. *)
Definition key_fits (E : engine) (operation : jsstring) (params : value) : bool :=
  (sort_stack E params <=? stack E)
  && (JSON_stack E params <=? stack E)
  && (List.length (operation ++ js ":"
                   ++ template_subst (JSON_stringify (sortObjectKeys params)))
      <=? max_string_length E)
  && (List.length operation + 33 <=? max_string_length E).

(** The values [String] has the stack and the strings for: the nesting of
    an array and the length of its joined elements. *)
Definition String_fits (E : engine) (v : value) : bool :=
  (join_stack E v <=? stack E)
  && match v, ToString v with
     | VArray _, Normal s => List.length s <=? max_string_length E
     | _, _ => true
     end.

(** The values of the declared type [StandardMetadata]: a string or
    [undefined]. *)
Definition declared_value (v : value) : bool :=
  match v with
  | VString _ | VUndefined => true
  | _ => false
  end.

(** The empty array nested [n] times in arrays of one element. *)
Fixpoint nested_arrays (n : nat) : value :=
  match n with
  | 0 => VArray []
  | S n' => VArray [nested_arrays n']
  end.

(* ================================================================== *)
(** * Properties *)

(** ** The hash function on the published test vectors *)

Example sha256_empty :
  SHA256.digest_hex (utf8_encode (js "")) =
  js "e3b0c44298fc1c149afbf4c8996fb92427ae41e4649b934ca495991b7852b855".
Proof. vm_compute. reflexivity. Qed.

Example sha256_abc :
  SHA256.digest_hex (utf8_encode (js "abc")) =
  js "ba7816bf8f01cfea414140de5dae2223b00361a396177a9cb410ff61f20015ad".
Proof. vm_compute. reflexivity. Qed.

Example sha256_three_blocks :
  SHA256.digest_hex
    (utf8_encode
       (js ("abcdefghbcdefghicdefghijdefghijkefghijklfghijklmghijklmn"
            ++ "hijklmnoijklmnopjklmnopqklmnopqrlmnopqrsmnopqrstnopqrstu"))) =
  js "cf5b16a778af8380036ce59e7b0492370b249b11e8f07a51afac45037afee9d1".
Proof. vm_compute. reflexivity. Qed.

(** Characters of two, three and four bytes: U+00E9, U+20AC and the pair
    for U+1F600. *)
Example sha256_utf8 :
  SHA256.digest_hex (utf8_encode [0xE9; 0x20AC; 0xD83D; 0xDE00]%N) =
  js "df9226927fd572c1ee66eec85de1bb139497614899f36e4e90474cb71f6ef9d0".
Proof. vm_compute. reflexivity. Qed.

Example sha256_two_blocks :
  SHA256.digest_hex
    (utf8_encode (js "abcdbcdecdefdefgefghfghighijhijkijkljklmklmnlmnomnopnopq")) =
  js "248d6a61d20638b8e5c026930c3e6039a33ce45964ff2167f6ecedd419db06c1".
Proof. vm_compute. reflexivity. Qed.

(** ** Strings *)

Lemma jsstring_eqb_eq (s t : jsstring) : jsstring_eqb s t = true <-> s = t.
Proof.
  revert t; induction s as [|c s IH]; intros [|d t]; simpl; split;
    try congruence; try reflexivity.
  - intros H. apply andb_true_iff in H as [Hc Hs].
    apply N.eqb_eq in Hc. apply IH in Hs. congruence.
  - intros H. injection H as -> ->. rewrite N.eqb_refl. simpl. now apply IH.
Qed.

Lemma jsstring_eqb_refl (s : jsstring) : jsstring_eqb s s = true.
Proof. now apply jsstring_eqb_eq. Qed.

Lemma jsstring_eqb_neq (s t : jsstring) : jsstring_eqb s t = false <-> s <> t.
Proof.
  split.
  - intros H E. apply jsstring_eqb_eq in E. congruence.
  - intros H. destruct (jsstring_eqb s t) eqn:E; [|reflexivity].
    apply jsstring_eqb_eq in E. contradiction.
Qed.

Lemma jsstring_eqb_sym (s t : jsstring) : jsstring_eqb s t = jsstring_eqb t s.
Proof.
  destruct (jsstring_eqb t s) eqn:E.
  - apply jsstring_eqb_eq in E. subst. apply jsstring_eqb_refl.
  - apply jsstring_eqb_neq in E. apply jsstring_eqb_neq. congruence.
Qed.

Lemma jsstring_eq_dec (s t : jsstring) : {s = t} + {s <> t}.
Proof.
  destruct (jsstring_eqb s t) eqn:E.
  - left. now apply jsstring_eqb_eq.
  - right. now apply jsstring_eqb_neq.
Defined.

Lemma jsstring_leb_refl (s : jsstring) : jsstring_leb s s = true.
Proof. induction s as [|c s IH]; simpl; [reflexivity|]. now rewrite N.compare_refl. Qed.

Lemma jsstring_leb_total (s t : jsstring) :
  jsstring_leb s t = true \/ jsstring_leb t s = true.
Proof.
  revert t; induction s as [|c s IH]; intros [|d t]; simpl; auto.
  rewrite (N.compare_antisym c d).
  destruct (N.compare c d); simpl; auto.
Qed.

Lemma jsstring_leb_antisym (s t : jsstring) :
  jsstring_leb s t = true -> jsstring_leb t s = true -> s = t.
Proof.
  revert t; induction s as [|c s IH]; intros [|d t]; simpl; try congruence.
  rewrite (N.compare_antisym c d).
  destruct (N.compare c d) eqn:E; simpl; try congruence.
  intros H1 H2. apply N.compare_eq in E. subst. f_equal. now apply IH.
Qed.

Lemma jsstring_leb_trans (s t u : jsstring) :
  jsstring_leb s t = true -> jsstring_leb t u = true -> jsstring_leb s u = true.
Proof.
  revert t u; induction s as [|c s IH]; intros [|d t] [|e u]; simpl;
    try congruence.
  destruct (N.compare c d) eqn:E1; destruct (N.compare d e) eqn:E2;
    try congruence; intros H1 H2.
  - apply N.compare_eq in E1, E2. subst. rewrite N.compare_refl. eauto.
  - apply N.compare_eq in E1. subst. now rewrite E2.
  - apply N.compare_eq in E2. subst. now rewrite E1.
  - rewrite N.compare_lt_iff in E1, E2.
    assert (E : (c ?= e)%N = Lt) by (apply N.compare_lt_iff; lia).
    now rewrite E.
Qed.

(** ** Sorting *)

Section SortFacts.
Context {A : Type} (leb : A -> A -> bool).
Hypothesis leb_total : forall a b, leb a b = true \/ leb b a = true.
Hypothesis leb_trans :
  forall a b c, leb a b = true -> leb b c = true -> leb a c = true.

Lemma insert_by_perm (a : A) (l : list A) :
  Permutation (insert_by leb a l) (a :: l).
Proof.
  induction l as [|h t IH]; simpl; [reflexivity|].
  destruct (leb a h); [reflexivity|].
  rewrite IH. apply perm_swap.
Qed.

Lemma sort_by_perm (l : list A) : Permutation (sort_by leb l) l.
Proof.
  induction l as [|h t IH]; simpl; [reflexivity|].
  rewrite insert_by_perm. now constructor.
Qed.

Lemma insert_by_sorted (a : A) (l : list A) :
  StronglySorted (fun x y => leb x y = true) l ->
  StronglySorted (fun x y => leb x y = true) (insert_by leb a l).
Proof.
  induction 1 as [|h t Ht IH Hh]; simpl.
  - repeat constructor.
  - destruct (leb a h) eqn:E.
    + constructor; [now constructor|].
      constructor; [exact E|].
      eapply Forall_impl; [|exact Hh]. intros x Hx. simpl in Hx. eauto.
    + constructor; [exact IH|].
      eapply Permutation_Forall; [symmetry; apply insert_by_perm|].
      constructor; [|exact Hh].
      destruct (leb_total a h); congruence.
Qed.

Lemma sort_by_sorted (l : list A) :
  StronglySorted (fun x y => leb x y = true) (sort_by leb l).
Proof.
  induction l as [|h t IH]; simpl; [constructor|].
  now apply insert_by_sorted.
Qed.
End SortFacts.

(** Two sorted lists with the same elements are equal, when the order is
    antisymmetric on these elements. *)
Lemma sorted_perm_unique {A} (R : A -> A -> Prop) (l1 l2 : list A) :
  StronglySorted R l1 -> StronglySorted R l2 -> Permutation l1 l2 ->
  (forall a b, In a l1 -> In b l1 -> R a b -> R b a -> a = b) ->
  l1 = l2.
Proof.
  revert l2. induction l1 as [|a l1 IH]; intros l2 S1 S2 P Hanti.
  - apply Permutation_nil in P. now subst.
  - destruct l2 as [|b l2].
    { apply Permutation_sym, Permutation_nil in P. discriminate. }
    assert (E : a = b).
    { apply StronglySorted_inv in S1 as [_ F1].
      apply StronglySorted_inv in S2 as [_ F2].
      rewrite Forall_forall in F1, F2.
      assert (Ha : In a (b :: l2))
        by (eapply Permutation_in; [exact P | now left]).
      assert (Hb : In b (a :: l1))
        by (eapply Permutation_in; [symmetry; exact P | now left]).
      destruct Ha as [->|Ha]; [reflexivity|].
      destruct Hb as [->|Hb]; [reflexivity|].
      apply Hanti; [now left | now right | auto | auto]. }
    subst b. f_equal.
    apply StronglySorted_inv in S1 as [S1 _].
    apply StronglySorted_inv in S2 as [S2 _].
    apply IH; auto.
    + eapply Permutation_cons_inv; exact P.
    + intros x y Hx Hy. apply Hanti; now right.
Qed.

(** Sorting distinct keys by an antisymmetric total order does not depend on
    the order in which they are given. *)
Lemma sort_by_permutation {A} (leb : A -> A -> bool) (l1 l2 : list A) :
  (forall a b, leb a b = true \/ leb b a = true) ->
  (forall a b c, leb a b = true -> leb b c = true -> leb a c = true) ->
  (forall a b, In a l1 -> In b l1 -> leb a b = true -> leb b a = true -> a = b) ->
  Permutation l1 l2 ->
  sort_by leb l1 = sort_by leb l2.
Proof.
  intros Htot Htrans Hanti P.
  apply sorted_perm_unique with (R := fun x y => leb x y = true).
  - now apply sort_by_sorted.
  - now apply sort_by_sorted.
  - rewrite !sort_by_perm. exact P.
  - intros a b Ha Hb. apply Hanti; eapply Permutation_in; try eassumption;
      apply sort_by_perm.
Qed.

(** ** The order of own keys *)

Lemma array_index_canonical (k : jsstring) (n : N) :
  array_index k = Some n -> k = N_to_decimal n.
Proof.
  unfold array_index. destruct (parse_decimal 0 k) as [m|]; [|discriminate].
  destruct (jsstring_eqb (N_to_decimal m) k) eqn:E; simpl; [|discriminate].
  destruct (m <? 4294967295)%N; [|discriminate].
  intros H. injection H as <-. symmetry. now apply jsstring_eqb_eq.
Qed.

Lemma array_index_inj (k1 k2 : jsstring) (n : N) :
  array_index k1 = Some n -> array_index k2 = Some n -> k1 = k2.
Proof.
  intros H1 H2. apply array_index_canonical in H1, H2. congruence.
Qed.

Lemma canon_leb_total (k1 k2 : jsstring) :
  canon_leb k1 k2 = true \/ canon_leb k2 k1 = true.
Proof.
  unfold canon_leb.
  destruct (array_index k1), (array_index k2); auto.
  - rewrite !N.leb_le. lia.
  - apply jsstring_leb_total.
Qed.

Lemma canon_leb_trans (k1 k2 k3 : jsstring) :
  canon_leb k1 k2 = true -> canon_leb k2 k3 = true -> canon_leb k1 k3 = true.
Proof.
  unfold canon_leb.
  destruct (array_index k1), (array_index k2), (array_index k3);
    try congruence.
  - rewrite !N.leb_le. lia.
  - apply jsstring_leb_trans.
Qed.

Lemma canon_leb_antisym (k1 k2 : jsstring) :
  canon_leb k1 k2 = true -> canon_leb k2 k1 = true -> k1 = k2.
Proof.
  unfold canon_leb.
  destruct (array_index k1) eqn:E1, (array_index k2) eqn:E2; try congruence.
  - rewrite !N.leb_le. intros H1 H2.
    assert (n = n0) by lia. subst. eapply array_index_inj; eauto.
  - apply jsstring_leb_antisym.
Qed.

Lemma enum_before_canon (k k' : jsstring) :
  enum_before k k' = true -> canon_leb k k' = true.
Proof.
  unfold enum_before, canon_leb.
  destruct (array_index k), (array_index k'); try congruence.
  rewrite N.ltb_lt, N.leb_le. lia.
Qed.

(** A key that is not placed before [k'] comes after it in canonical order,
    provided that, when neither is an array index, it is the greater one. *)
Lemma not_enum_before_canon (k k' : jsstring) :
  enum_before k k' = false ->
  (array_index k' = None -> array_index k = None -> jsstring_leb k' k = true) ->
  canon_leb k' k = true.
Proof.
  unfold enum_before, canon_leb.
  destruct (array_index k), (array_index k'); try congruence; auto.
  rewrite N.ltb_ge, N.leb_le. auto.
Qed.

Section EntryOrder.
Context {A : Type}.

Lemma entry_canon_total (e1 e2 : jsstring * A) :
  entry_leb canon_leb e1 e2 = true \/ entry_leb canon_leb e2 e1 = true.
Proof. apply canon_leb_total. Qed.

Lemma entry_canon_trans (e1 e2 e3 : jsstring * A) :
  entry_leb canon_leb e1 e2 = true -> entry_leb canon_leb e2 e3 = true ->
  entry_leb canon_leb e1 e3 = true.
Proof. apply canon_leb_trans. Qed.

Lemma entry_lex_total (e1 e2 : jsstring * A) :
  entry_leb jsstring_leb e1 e2 = true \/ entry_leb jsstring_leb e2 e1 = true.
Proof. apply jsstring_leb_total. Qed.

Lemma entry_lex_trans (e1 e2 e3 : jsstring * A) :
  entry_leb jsstring_leb e1 e2 = true -> entry_leb jsstring_leb e2 e3 = true ->
  entry_leb jsstring_leb e1 e3 = true.
Proof. apply jsstring_leb_trans. Qed.
End EntryOrder.

(** ** Own properties *)

Lemma existsb_eqb_In (k : jsstring) (l : list jsstring) :
  existsb (jsstring_eqb k) l = true <-> In k l.
Proof.
  rewrite existsb_exists. split.
  - intros [x [Hx E]]. apply jsstring_eqb_eq in E. now subst.
  - intros H. exists k. split; [exact H | apply jsstring_eqb_refl].
Qed.

Lemma distinctb_NoDup (l : list jsstring) : distinctb l = true <-> NoDup l.
Proof.
  induction l as [|k l IH]; simpl.
  - split; [constructor | reflexivity].
  - rewrite andb_true_iff, negb_true_iff, IH. split.
    + intros [H1 H2]. constructor; [|exact H2].
      intros Hin. apply existsb_eqb_In in Hin. congruence.
    + intros H. inversion H as [|? ? Hn Hd]; subst. split; [|exact Hd].
      destruct (existsb (jsstring_eqb k) l) eqn:E; [|reflexivity].
      apply existsb_eqb_In in E. contradiction.
Qed.

Section OwnProperties.
Context {A : Type}.
Implicit Types (o : obj A) (k : jsstring) (v : A).

Lemma obj_get_In o k v : obj_get o k = Some v -> In (k, v) o.
Proof.
  induction o as [|[k' v'] o IH]; simpl; [discriminate|].
  destruct (jsstring_eqb k' k) eqn:E.
  - intros H. injection H as ->. apply jsstring_eqb_eq in E. subst. now left.
  - intros H. right. auto.
Qed.

Lemma obj_get_None o k : obj_get o k = None <-> ~ In k (map fst o).
Proof.
  induction o as [|[k' v'] o IH]; simpl; [tauto|].
  destruct (jsstring_eqb k' k) eqn:E.
  - apply jsstring_eqb_eq in E. subst. split; [discriminate|]. tauto.
  - apply jsstring_eqb_neq in E. rewrite IH. tauto.
Qed.

Lemma obj_get_distinct o k v :
  NoDup (map fst o) -> In (k, v) o -> obj_get o k = Some v.
Proof.
  induction o as [|[k' v'] o IH]; simpl; [tauto|].
  intros Hnd [E|Hin].
  - injection E as -> ->. now rewrite jsstring_eqb_refl.
  - inversion Hnd as [|? ? Hn Hd]; subst.
    destruct (jsstring_eqb k' k) eqn:E.
    + apply jsstring_eqb_eq in E. subst. exfalso. apply Hn.
      change k with (fst (k, v)). now apply in_map.
    + auto.
Qed.

Lemma obj_has_In o k : obj_has o k = true <-> In k (map fst o).
Proof.
  unfold obj_has. destruct (obj_get o k) eqn:E.
  - split; [|reflexivity]. intros _. apply obj_get_In in E.
    change k with (fst (k, a)). now apply in_map.
  - split; [discriminate|]. intros H. apply obj_get_None in E. contradiction.
Qed.

(** A new key is added, nothing else changes. *)
Lemma obj_define_new o k v :
  ~ In k (map fst o) -> Permutation (obj_define o k v) ((k, v) :: o).
Proof.
  induction o as [|[k' v'] o IH]; simpl; intros Hn; [reflexivity|].
  destruct (jsstring_eqb k k') eqn:E.
  - apply jsstring_eqb_eq in E. subst. tauto.
  - destruct (enum_before k k'); [reflexivity|].
    rewrite IH by tauto. apply perm_swap.
Qed.

Lemma obj_define_canon_sorted o k v :
  StronglySorted (fun e1 e2 => entry_leb canon_leb e1 e2 = true) o ->
  ~ In k (map fst o) ->
  (forall k', In k' (map fst o) -> array_index k' = None ->
              array_index k = None -> jsstring_leb k' k = true) ->
  StronglySorted (fun e1 e2 => entry_leb canon_leb e1 e2 = true)
                 (obj_define o k v).
Proof.
  induction 1 as [|[k' v'] o Ho IH Hk']; simpl; intros Hn Hlex.
  - repeat constructor.
  - destruct (jsstring_eqb k k') eqn:E.
    { apply jsstring_eqb_eq in E. subst. tauto. }
    destruct (enum_before k k') eqn:B.
    + constructor; [now constructor|].
      apply enum_before_canon in B.
      constructor; [exact B|].
      eapply Forall_impl; [|exact Hk']. intros e He.
      eapply canon_leb_trans; [exact B | exact He].
    + constructor.
      * apply IH; [tauto|]. intros k'' Hin. apply Hlex. now right.
      * eapply Permutation_Forall;
          [symmetry; apply obj_define_new; tauto|].
        constructor; [|exact Hk'].
        apply not_enum_before_canon; [exact B|].
        apply Hlex. now left.
Qed.
End OwnProperties.

(** ** [sortObjectKeys] *)

Lemma fold_left_ext {A B} (f g : A -> B -> A) (l : list B) (a : A) :
  (forall x y, f x y = g x y) -> fold_left f l a = fold_left g l a.
Proof.
  intros H. revert a. induction l as [|b l IH]; intros a; simpl; [reflexivity|].
  now rewrite H, IH.
Qed.

(** The body of [sortObjectKeys] on an object, as the source has it:
    [sorted[key] = sortObjectKeys(obj[key])] for each key of the sorted
    [Object.keys(obj)]. *)
Lemma sortObjectKeys_object (props : obj value) :
  sortObjectKeys (VObject props) =
  VObject (fold_left (fun sorted key =>
                        obj_set sorted key (sortObjectKeys (Get props key)))
                     (Array_sort (Object_keys props)) []).
Proof.
  simpl. f_equal. apply fold_left_ext. intros sorted key. f_equal.
  unfold Get. induction props as [|[k v] props IH]; simpl; [reflexivity|].
  destruct (jsstring_eqb k key); [reflexivity | exact IH].
Qed.

(** Assigning the keys of a sorted list of distinct keys, one after the
    other, yields the assigned properties in canonical order. *)
Lemma assign_sorted_keys {A} (g : jsstring -> A) (L : list jsstring) (s : obj A) :
  StronglySorted (fun a b => jsstring_leb a b = true) L ->
  NoDup L ->
  (forall k, In k L -> ~ In k (map fst s)) ->
  (forall k' k, In k' (map fst s) -> In k L -> jsstring_leb k' k = true) ->
  StronglySorted (fun e1 e2 => entry_leb canon_leb e1 e2 = true) s ->
  StronglySorted (fun e1 e2 => entry_leb canon_leb e1 e2 = true)
    (fold_left (fun sorted key => obj_set sorted key (g key)) L s)
  /\ Permutation
       (fold_left (fun sorted key => obj_set sorted key (g key)) L s)
       (s ++ map (fun k => (k, g k)) (filter key_not_proto L)).
Proof.
  revert s. induction L as [|k L IH]; intros s HL Hnd Hnew Hle Hs; simpl.
  - split; [exact Hs|]. now rewrite app_nil_r.
  - apply StronglySorted_inv in HL as [HL HkL].
    inversion Hnd as [|? ? HnL HndL]; subst.
    unfold obj_set at 2 4, key_not_proto at 1.
    destruct (jsstring_eqb k proto_key) eqn:E; simpl.
    + apply IH; auto.
      * intros k0 H0. apply Hnew. now right.
      * intros k' k0 H' H0. apply Hle; [exact H' | now right].
    + assert (Hk : ~ In k (map fst s)) by (apply Hnew; now left).
      assert (Hkeys : Permutation (map fst (obj_define s k (g k))) (k :: map fst s)).
      { change (k :: map fst s) with (map fst ((k, g k) :: s)).
        apply Permutation_map. now apply obj_define_new. }
      destruct (IH (obj_define s k (g k))) as [IH1 IH2]; auto.
      * intros k0 H0 Hin.
        eapply Permutation_in in Hin; [|exact Hkeys].
        destruct Hin as [->|Hin]; [contradiction|].
        revert Hin. apply Hnew. now right.
      * intros k' k0 H' H0.
        eapply Permutation_in in H'; [|exact Hkeys].
        destruct H' as [<-|H'].
        -- rewrite Forall_forall in HkL. now apply HkL.
        -- apply Hle; [exact H' | now right].
      * apply obj_define_canon_sorted; auto.
        intros k' H' _ _. apply Hle; [exact H' | now left].
      * split; [exact IH1|].
        rewrite IH2. rewrite (@obj_define_new _ s k (g k) Hk). simpl.
        apply Permutation_middle.
Qed.

Lemma pairs_of_distinct_keys {A B} (f : A -> B) (d : A) (ps : obj A) :
  NoDup (map fst ps) ->
  map (fun k => (k, f match obj_get ps k with Some v => v | None => d end))
      (map fst ps)
  = map (fun e => (fst e, f (snd e))) ps.
Proof.
  intros Hnd. rewrite map_map. apply map_ext_in. intros [k v] Hin. simpl.
  now rewrite (@obj_get_distinct _ ps k v Hnd Hin).
Qed.

Lemma filter_key_map {A} (g : jsstring -> A) (l : list jsstring) :
  map (fun k => (k, g k)) (filter key_not_proto l)
  = filter not_proto (map (fun k => (k, g k)) l).
Proof.
  induction l as [|k l IH]; simpl; [reflexivity|].
  unfold not_proto at 1, key_not_proto at 1. simpl.
  destruct (jsstring_eqb k proto_key); simpl; now rewrite IH.
Qed.

Lemma permutation_filter {A} (p : A -> bool) (l l' : list A) :
  Permutation l l' -> Permutation (filter p l) (filter p l').
Proof.
  induction 1 as [| x l l' _ IH | x y l | l l' l'' _ IH1 _ IH2]; simpl.
  - constructor.
  - destruct (p x); [now constructor | exact IH].
  - destruct (p x), (p y); try reflexivity. apply perm_swap.
  - now rewrite IH1.
Qed.

Lemma Array_sort_sorted (l : list jsstring) :
  StronglySorted (fun a b => jsstring_leb a b = true) (Array_sort l).
Proof.
  apply sort_by_sorted; [apply jsstring_leb_total | apply jsstring_leb_trans].
Qed.

Lemma Array_sort_perm (l : list jsstring) : Permutation (Array_sort l) l.
Proof. apply sort_by_perm. Qed.

(** [sortObjectKeys] computes the canonical form in own-key order. *)
Lemma sortObjectKeys_canonical (v : value) :
  well_formed v = true -> sortObjectKeys v = own_key_canonical v.
Proof.
  induction v as [ | | | | | elems IH | props IH ] using value_ind;
    intros Hwf; try reflexivity.
  - simpl. f_equal. apply map_ext_in. intros e He.
    rewrite Forall_forall in IH. apply IH; [exact He|].
    simpl in Hwf. rewrite forallb_forall in Hwf. now apply Hwf.
  - simpl in Hwf. apply andb_true_iff in Hwf as [Hd Hwf].
    apply distinctb_NoDup in Hd. rewrite forallb_forall in Hwf.
    rewrite Forall_forall in IH.
    rewrite sortObjectKeys_object. cbn [own_key_canonical]. f_equal.
    set (g := fun key => sortObjectKeys (Get props key)).
    destruct (@assign_sorted_keys value g (Array_sort (Object_keys props)) [])
      as [HS HP].
    { apply Array_sort_sorted. }
    { eapply Permutation_NoDup; [symmetry; apply Array_sort_perm | exact Hd]. }
    { intros k _ []. }
    { intros k' k []. }
    { constructor. }
    assert (HP' : Permutation
              (fold_left (fun sorted key => obj_set sorted key (g key))
                         (Array_sort (Object_keys props)) [])
              (filter not_proto
                 (map (fun e => (fst e, own_key_canonical (snd e))) props))).
    { rewrite HP. simpl. rewrite filter_key_map.
      apply permutation_filter.
      rewrite (Permutation_map _ (Array_sort_perm (Object_keys props))).
      unfold g, Get, Object_keys.
      rewrite (pairs_of_distinct_keys sortObjectKeys VUndefined) by exact Hd.
      erewrite map_ext_in; [reflexivity|].
      intros e He. simpl. f_equal. apply IH; auto. }
    apply sorted_perm_unique
      with (R := fun e1 e2 => entry_leb canon_leb e1 e2 = true).
    + exact HS.
    + apply sort_by_sorted; [apply entry_canon_total | apply entry_canon_trans].
    + eapply Permutation_trans; [exact HP'|]. symmetry. apply sort_by_perm.
    + intros a b Ha Hb Hab Hba.
      assert (E : fst a = fst b) by (now apply canon_leb_antisym).
      eapply Permutation_in in Ha; [|exact HP].
      eapply Permutation_in in Hb; [|exact HP].
      simpl in Ha, Hb. apply in_map_iff in Ha as [ka [<- _]].
      apply in_map_iff in Hb as [kb [<- _]]. simpl in E. now subst.
Qed.

(** ** The digest in hexadecimal *)

Lemma hex_char_lower (d : N) : (d < 16)%N -> is_lower_hex (hex_char d) = true.
Proof.
  intros H. unfold is_lower_hex, hex_char.
  destruct (d <? 10)%N eqn:E.
  - apply N.ltb_lt in E. apply orb_true_iff. left.
    apply andb_true_iff. split; apply N.leb_le; lia.
  - apply N.ltb_ge in E. apply orb_true_iff. right.
    apply andb_true_iff. split; apply N.leb_le; lia.
Qed.

Lemma nibble_bound (x : N) : (N.land x 0xF < 16)%N.
Proof.
  change 0xF%N with (N.ones 4). rewrite N.land_ones.
  apply N.mod_lt. discriminate.
Qed.

Lemma word_hex_length (w : N) : List.length (SHA256.word_hex w) = 8.
Proof. reflexivity. Qed.

Lemma word_hex_lower (w : N) : forallb is_lower_hex (SHA256.word_hex w) = true.
Proof.
  unfold SHA256.word_hex. apply forallb_forall. intros c Hc.
  apply in_map_iff in Hc as [i [<- _]]. apply hex_char_lower, nibble_bound.
Qed.

Lemma digest_hex_length (msg : list N) : List.length (SHA256.digest_hex msg) = 64.
Proof.
  unfold SHA256.digest_hex. cbv zeta.
  now rewrite !length_app, !word_hex_length.
Qed.

Lemma digest_hex_lower (msg : list N) :
  forallb is_lower_hex (SHA256.digest_hex msg) = true.
Proof.
  unfold SHA256.digest_hex. cbv zeta.
  rewrite !forallb_app, !word_hex_lower. reflexivity.
Qed.

Lemma forallb_firstn {A} (p : A -> bool) (n : nat) (l : list A) :
  forallb p l = true -> forallb p (firstn n l) = true.
Proof.
  rewrite !forallb_forall. intros H x Hx. apply H.
  rewrite <- (firstn_skipn n l). apply in_or_app. now left.
Qed.

Lemma In_firstn {A} (n : nat) (l : list A) (x : A) : In x (firstn n l) -> In x l.
Proof.
  intros Hx. rewrite <- (firstn_skipn n l). apply in_or_app. now left.
Qed.

(** ** The idempotency key *)

(** The key is the operation, a dash and 32 characters. *)
Lemma generateIdempotencyKey_length (o : jsstring) (p : value) :
  List.length (generateIdempotencyKey o p) = List.length o + 33.
Proof.
  unfold generateIdempotencyKey, substring0. cbv zeta.
  rewrite !length_app, length_firstn, digest_hex_length. simpl. lia.
Qed.

(** C1, as stated, fails on keys that are array indices: the specification
    sorts ["10"] before ["9"], the canonical object of the code lists the
    index 9 before the index 10, and the two serializations differ. *)
Lemma canonical_order_counterexample :
  generateIdempotencyKey (js "coupon")
    (VObject [(js "10", VNumber (Num_int 1)); (js "9", VNumber (Num_int 2))])
  <> spec_key (js "coupon")
    (VObject [(js "10", VNumber (Num_int 1)); (js "9", VNumber (Num_int 2))]).
Proof.
  intros H. apply jsstring_eqb_eq in H. vm_compute in H. discriminate H.
Qed.

(** On mappings without array-index keys and without [__proto__], the two
    canonical forms are the same. *)
Lemma insert_by_ext_in {A} (leb1 leb2 : A -> A -> bool) (a : A) (l : list A) :
  (forall b, In b l -> leb1 a b = leb2 a b) ->
  insert_by leb1 a l = insert_by leb2 a l.
Proof.
  induction l as [|h t IH]; simpl; intros H; [reflexivity|].
  rewrite (H h) by now left. destruct (leb2 a h); [reflexivity|].
  f_equal. apply IH. intros b Hb. apply H. now right.
Qed.

Lemma sort_by_ext_in {A} (leb1 leb2 : A -> A -> bool) (l : list A) :
  (forall a b, In a l -> In b l -> leb1 a b = leb2 a b) ->
  sort_by leb1 l = sort_by leb2 l.
Proof.
  induction l as [|h t IH]; simpl; intros H; [reflexivity|].
  rewrite IH by (intros a b Ha Hb; apply H; now right).
  apply insert_by_ext_in. intros b Hb. apply H; [now left | right].
  eapply Permutation_in; [apply sort_by_perm | exact Hb].
Qed.

Lemma plain_keys_canonical (v : value) :
  plain_keys v = true -> own_key_canonical v = spec_canonicalize v.
Proof.
  induction v as [ | | | | | elems IH | props IH ] using value_ind;
    intros Hp; try reflexivity.
  - simpl. f_equal. apply map_ext_in. intros e He.
    rewrite Forall_forall in IH. apply IH; [exact He|].
    simpl in Hp. rewrite forallb_forall in Hp. now apply Hp.
  - simpl in Hp. rewrite forallb_forall in Hp. rewrite Forall_forall in IH.
    simpl. f_equal.
    assert (E : map (fun e => (fst e, own_key_canonical (snd e))) props
                = map (fun e => (fst e, spec_canonicalize (snd e))) props).
    { apply map_ext_in. intros e He. f_equal. apply IH; [exact He|].
      apply Hp in He. now apply andb_true_iff in He. }
    rewrite E.
    assert (Hk : forall e,
               In e (map (fun e => (fst e, spec_canonicalize (snd e))) props) ->
               plain_key (fst e) = true).
    { intros e He. apply in_map_iff in He as [e0 [<- He0]]. simpl.
      apply Hp in He0. now apply andb_true_iff in He0. }
    rewrite forallb_filter_id.
    + apply sort_by_ext_in. intros a b Ha Hb.
      apply Hk in Ha, Hb. unfold plain_key in Ha, Hb.
      unfold entry_leb, canon_leb.
      destruct (array_index (fst a)); [discriminate|].
      destruct (array_index (fst b)); [discriminate|]. reflexivity.
    + apply forallb_forall. intros e He. apply Hk in He.
      unfold plain_key in He. unfold not_proto.
      destruct (array_index (fst e)); [discriminate | exact He].
Qed.

(** C1 (amended).  For every operation [o] and every parameter value [p]
    whose mappings have distinct keys, [generateIdempotencyKey o p] is [o],
    a dash and [h], where [h] is the first 32 characters, all lowercase
    hexadecimal digits, of the SHA-256 digest of the UTF-8 bytes of [o], a
    colon and [s]; [s] is the JSON text (or [undefined] when there is none)
    of the canonical form of [p] in own-key order: in a mapping the entry
    [__proto__] is left out, the keys that are array indices come first in
    ascending numeric order, the other keys follow in ascending order of
    their code units, and the values are canonicalized recursively; a
    sequence keeps its length and the order of its elements; any other
    value is unchanged.  When no mapping of [p] has an array index or
    [__proto__] as a key, this is the canonical form of the specification,
    with all keys in ascending lexicographic order. *)
Theorem generateIdempotencyKey_canonical (o : jsstring) (p : value) :
  well_formed p = true ->
  (exists h,
      generateIdempotencyKey o p = o ++ js "-" ++ h
      /\ h = firstn 32
               (SHA256.digest_hex
                  (utf8_encode
                     (o ++ js ":" ++
                      template_subst (JSON_serialize (own_key_canonical p)))))
      /\ List.length h = 32
      /\ forallb is_lower_hex h = true)
  /\ (plain_keys p = true -> generateIdempotencyKey o p = spec_key o p).
Proof.
  intros Hwf.
  assert (E : generateIdempotencyKey o p = key_of own_key_canonical o p).
  { unfold generateIdempotencyKey, key_of, JSON_stringify, substring0. cbv zeta.
    now rewrite (sortObjectKeys_canonical p Hwf). }
  split.
  - eexists. split; [exact E|]. split; [reflexivity|]. split.
    + rewrite length_firstn, digest_hex_length. reflexivity.
    + apply forallb_firstn, digest_hex_lower.
  - intros Hp. rewrite E. unfold spec_key, key_of.
    now rewrite (plain_keys_canonical p Hp).
Qed.

Lemma generateIdempotencyKey_canonical_witness :
  generateIdempotencyKey (js "balance-credit")
    (VObject [(js "customerId", VString (js "cus_1"));
              (js "amount", VNumber (Num_int 1000));
              (js "metadata", VObject [(js "tenantId", VString (js "t1"))])])
  = spec_key (js "balance-credit")
    (VObject [(js "customerId", VString (js "cus_1"));
              (js "amount", VNumber (Num_int 1000));
              (js "metadata", VObject [(js "tenantId", VString (js "t1"))])]).
Proof.
  apply generateIdempotencyKey_canonical; vm_compute; reflexivity.
Defined.

(** C4, as stated, fails: an operation of 223 characters gives a key of 256
    characters. *)
Lemma key_length_counterexample :
  ~ List.length (generateIdempotencyKey (repeat 97%N 223) VNull) <= 255.
Proof. rewrite generateIdempotencyKey_length, repeat_length. lia. Qed.

(** C4 (amended).  For every operation string of at most 222 characters and
    every parameter value, the key has at most 255 characters: its length is
    the length of the operation plus 33. *)
Theorem generateIdempotencyKey_bounded (o : jsstring) (p : value) :
  List.length o <= 222 ->
  List.length (generateIdempotencyKey o p) <= 255.
Proof. intros H. rewrite generateIdempotencyKey_length. lia. Qed.

Lemma generateIdempotencyKey_bounded_witness :
  List.length (generateIdempotencyKey (js "balance-credit")
                 (VObject [(js "amount", VNumber (Num_int 1000))])) <= 255.
Proof.
  apply generateIdempotencyKey_bounded. vm_compute. lia.
Defined.

(** C5.  Canonicalization keeps the elements of a sequence in their order,
    and the key depends on it: the two orders of a two-element sequence
    under the same property give different keys. *)
Theorem sequence_order_sensitive :
  (forall elems,
      sortObjectKeys (VArray elems) = VArray (map sortObjectKeys elems))
  /\ exists o k a b,
      a <> b
      /\ generateIdempotencyKey o (VObject [(k, VArray [a; b])])
         <> generateIdempotencyKey o (VObject [(k, VArray [b; a])]).
Proof.
  split; [reflexivity|].
  exists (js "coupon"), (js "codes"), (VString (js "SAVE10")), (VString (js "SAVE20")).
  split.
  - intros H. injection H as H. vm_compute in H. discriminate H.
  - intros H. apply jsstring_eqb_eq in H. vm_compute in H. discriminate H.
Qed.

(** Not every reordering is seen: in a sequence [undefined] and [null] are
    both written [null], so exchanging them leaves the key unchanged. *)
Lemma undefined_null_elements_same_key (o k : jsstring) :
  generateIdempotencyKey o (VObject [(k, VArray [VNull; VUndefined])])
  = generateIdempotencyKey o (VObject [(k, VArray [VUndefined; VNull])]).
Proof.
  assert (E : JSON_stringify (sortObjectKeys (VObject [(k, VArray [VNull; VUndefined])]))
              = JSON_stringify (sortObjectKeys (VObject [(k, VArray [VUndefined; VNull])]))).
  { rewrite !sortObjectKeys_object. cbn [Object_keys map fst Array_sort sort_by insert_by fold_left].
    unfold obj_set. destruct (jsstring_eqb k proto_key); [reflexivity|].
    unfold Get. cbn [obj_get]. rewrite jsstring_eqb_refl. reflexivity. }
  unfold generateIdempotencyKey. cbv zeta. now rewrite E.
Qed.

(** ** Independence of the order of properties *)

Lemma distinct_keys_entry_eq {A} (l : obj A) (a b : jsstring * A) :
  NoDup (map fst l) -> In a l -> In b l -> fst a = fst b -> a = b.
Proof.
  intros Hnd Ha Hb E. destruct a as [ka va], b as [kb vb]. simpl in E. subst kb.
  pose proof (@obj_get_distinct _ l ka va Hnd Ha) as H1.
  pose proof (@obj_get_distinct _ l ka vb Hnd Hb) as H2.
  congruence.
Qed.

Lemma keys_map_values {A B} (f : A -> B) (l : obj A) :
  map fst (map (fun e => (fst e, f (snd e))) l) = map fst l.
Proof. induction l as [|e l IH]; simpl; [reflexivity | now rewrite IH]. Qed.

(** The canonical entries of a mapping depend on its properties only. *)
Lemma canonical_entries_permutation (l1 l2 : obj value) :
  NoDup (map fst l1) -> Permutation l1 l2 ->
  sort_by (entry_leb canon_leb) (filter not_proto l1)
  = sort_by (entry_leb canon_leb) (filter not_proto l2).
Proof.
  intros Hnd P. apply sort_by_permutation.
  - apply entry_canon_total.
  - apply entry_canon_trans.
  - intros a b Ha Hb Hab Hba.
    apply filter_In in Ha as [Ha _]. apply filter_In in Hb as [Hb _].
    apply (distinct_keys_entry_eq l1); auto.
    now apply canon_leb_antisym.
  - now apply permutation_filter.
Qed.

Lemma permuted_canonical (v : value) :
  forall w, permuted v w -> well_formed v = true ->
            well_formed w = true /\ own_key_canonical v = own_key_canonical w.
Proof.
  induction v as [ | | | | | elems IH | props IH ] using value_ind;
    intros w Hp Hwf; inversion Hp; subst; try (split; [assumption|reflexivity]).
  - (* arrays *)
    simpl in Hwf. simpl.
    match goal with H : Forall2 permuted _ _ |- _ => rename H into HF end.
    assert (G : forallb well_formed l' = true
                /\ map own_key_canonical elems = map own_key_canonical l').
    { clear Hp. induction HF as [|e e' l l' He HF IHF]; [split; reflexivity|].
      simpl in Hwf. apply andb_true_iff in Hwf as [Hwe Hwl].
      apply Forall_cons_iff in IH as [IHe IHl].
      destruct (IHe e' He Hwe) as [H1 H2].
      destruct (IHF IHl Hwl) as [H3 H4].
      simpl. rewrite H1, H3, H2, H4. split; reflexivity. }
    destruct G as [G1 G2]. split; [exact G1 | now rewrite G2].
  - (* objects *)
    simpl in Hwf. apply andb_true_iff in Hwf as [Hd Hwf].
    apply distinctb_NoDup in Hd.
    match goal with
    | H : Forall2 _ props _, H' : Permutation _ _ |- _ =>
        rename H into HF; rename H' into HP
    end.
    assert (G : map fst props = map fst qs
                /\ forallb (fun e => well_formed (snd e)) qs = true
                /\ map (fun e => (fst e, own_key_canonical (snd e))) props
                   = map (fun e => (fst e, own_key_canonical (snd e))) qs).
    { clear Hp Hd HP. induction HF as [|e e' l l' [Hk He] HF IHF];
        [repeat split; reflexivity|].
      simpl in Hwf. apply andb_true_iff in Hwf as [Hwe Hwl].
      apply Forall_cons_iff in IH as [IHe IHl].
      destruct (IHe (snd e') He Hwe) as [H1 H2].
      destruct (IHF IHl Hwl) as [H3 [H4 H5]].
      simpl. rewrite H1, H4, H2, H5, H3, Hk. repeat split; reflexivity. }
    destruct G as [G1 [G2 G3]]. split.
    + simpl. apply andb_true_iff. split.
      * apply distinctb_NoDup.
        eapply Permutation_NoDup; [apply Permutation_map; exact HP|].
        now rewrite <- G1.
      * apply forallb_forall. intros e He. rewrite forallb_forall in G2.
        apply G2. eapply Permutation_in; [symmetry; exact HP | exact He].
    + simpl. f_equal. rewrite G3. apply canonical_entries_permutation.
      * rewrite keys_map_values. now rewrite <- G1.
      * now apply Permutation_map.
Qed.

(** C2.  For every operation and every mapping with distinct keys, the key
    of the mapping and the key of any value with the same properties, listed
    in another order at any depth, are equal. *)
Theorem generateIdempotencyKey_order_independent
  (o : jsstring) (m : obj value) (m' : value) :
  well_formed (VObject m) = true ->
  permuted (VObject m) m' ->
  generateIdempotencyKey o (VObject m) = generateIdempotencyKey o m'.
Proof.
  intros Hwf Hp.
  destruct (permuted_canonical Hp Hwf) as [Hwf' E].
  unfold generateIdempotencyKey. cbv zeta.
  now rewrite (sortObjectKeys_canonical _ Hwf), (sortObjectKeys_canonical _ Hwf'), E.
Qed.

(** The end-to-end scenario of the specification: the top-level properties
    and those of [metadata] in another order. *)
Lemma generateIdempotencyKey_order_independent_witness :
  generateIdempotencyKey (js "balance-credit")
    (VObject [(js "customerId", VString (js "cus_1"));
              (js "amount", VNumber (Num_int 1000));
              (js "metadata", VObject [(js "tenantId", VString (js "t1"));
                                       (js "userId", VString (js "u1"))])])
  = generateIdempotencyKey (js "balance-credit")
    (VObject [(js "metadata", VObject [(js "userId", VString (js "u1"));
                                       (js "tenantId", VString (js "t1"))]);
              (js "amount", VNumber (Num_int 1000));
              (js "customerId", VString (js "cus_1"))]).
Proof.
  apply generateIdempotencyKey_order_independent.
  - vm_compute. reflexivity.
  - eapply permuted_object with
      (qs := [(js "customerId", VString (js "cus_1"));
              (js "amount", VNumber (Num_int 1000));
              (js "metadata", VObject [(js "userId", VString (js "u1"));
                                       (js "tenantId", VString (js "t1"))])]).
    + constructor; [split; [reflexivity | apply permuted_same]|].
      constructor; [split; [reflexivity | apply permuted_same]|].
      constructor; [split; [reflexivity|] | constructor].
      simpl.
      apply permuted_object with
        (qs := [(js "tenantId", VString (js "t1")); (js "userId", VString (js "u1"))]).
      * constructor; [split; [reflexivity | apply permuted_same]|].
        constructor; [split; [reflexivity | apply permuted_same]|].
        constructor.
      * apply perm_swap.
    + apply (Permutation_rev
               [(js "customerId", VString (js "cus_1"));
                (js "amount", VNumber (Num_int 1000));
                (js "metadata", VObject [(js "userId", VString (js "u1"));
                                         (js "tenantId", VString (js "t1"))])]).
Defined.

(** ** Properties with the value [undefined] *)

Lemma JSON_serialize_object (props : obj value) :
  JSON_serialize (VObject props)
  = Some (js "{" ++ join_with (js ",") (JSON_members props) ++ js "}").
Proof.
  reflexivity.
Qed.

(** A property without a serialization does not show in the members,
    wherever the order puts it. *)
Lemma JSON_members_insert (leb : jsstring * value -> jsstring * value -> bool)
      (e : jsstring * value) (l : obj value) :
  JSON_serialize (snd e) = None ->
  JSON_members (insert_by leb e l) = JSON_members l.
Proof.
  intros He. induction l as [|[k' v'] l IH]; simpl.
  - destruct e as [k v]. simpl in He. now rewrite He.
  - destruct (leb e (k', v')).
    + destruct e as [k v]. simpl in *. now rewrite He.
    + simpl. now rewrite IH.
Qed.

Lemma well_formed_add_undefined (m1 m2 : obj value) (k : jsstring) :
  well_formed (VObject (m1 ++ m2)) = true ->
  ~ In k (map fst (m1 ++ m2)) ->
  well_formed (VObject (m1 ++ (k, VUndefined) :: m2)) = true.
Proof.
  simpl. intros H Hk. apply andb_true_iff in H as [Hd Hw].
  apply andb_true_iff. split.
  - apply distinctb_NoDup. apply distinctb_NoDup in Hd.
    rewrite map_app in *. simpl. apply NoDup_Add with (a := k) (l := map fst m1 ++ map fst m2).
    + apply Add_app.
    + split; assumption.
  - rewrite forallb_app in *. simpl. exact Hw.
Qed.

(** C10.  A property bound to [undefined] and a missing property give the
    same key: for every operation, every mapping with distinct keys and
    every key that the mapping does not have, adding the key with the value
    [undefined], at any place, leaves the key unchanged. *)
Theorem generateIdempotencyKey_undefined_property
  (o : jsstring) (m1 m2 : obj value) (k : jsstring) :
  well_formed (VObject (m1 ++ m2)) = true ->
  ~ In k (map fst (m1 ++ m2)) ->
  generateIdempotencyKey o (VObject (m1 ++ (k, VUndefined) :: m2))
  = generateIdempotencyKey o (VObject (m1 ++ m2)).
Proof.
  intros Hwf Hk.
  pose proof (well_formed_add_undefined m1 m2 k Hwf Hk) as Hwf'.
  unfold generateIdempotencyKey, JSON_stringify. cbv zeta.
  rewrite (sortObjectKeys_canonical _ Hwf), (sortObjectKeys_canonical _ Hwf').
  do 6 f_equal.
  cbn [own_key_canonical]. rewrite !JSON_serialize_object. do 4 f_equal.
  rewrite !map_app, !filter_app. cbn [map filter fst snd own_key_canonical].
  unfold not_proto at 2. cbn [fst].
  destruct (jsstring_eqb k proto_key) eqn:E; cbn [negb]; [reflexivity|].
  set (c := fun e : jsstring * value => (fst e, own_key_canonical (snd e))).
  assert (Hd : NoDup (map fst (map c m1 ++ (k, VUndefined) :: map c m2))).
  { simpl in Hwf'. apply andb_true_iff in Hwf' as [Hd _].
    apply distinctb_NoDup in Hd. rewrite map_app in *. simpl in *.
    unfold c. now rewrite !keys_map_values. }
  assert (Hs : sort_by (entry_leb canon_leb)
                 (filter not_proto (map c m1) ++ (k, VUndefined) :: filter not_proto (map c m2))
               = insert_by (entry_leb canon_leb) (k, VUndefined)
                   (sort_by (entry_leb canon_leb)
                      (filter not_proto (map c m1) ++ filter not_proto (map c m2)))).
  { change (insert_by (entry_leb canon_leb) (k, VUndefined)
              (sort_by (entry_leb canon_leb)
                 (filter not_proto (map c m1) ++ filter not_proto (map c m2))))
      with (sort_by (entry_leb canon_leb)
              ((k, VUndefined) :: filter not_proto (map c m1) ++ filter not_proto (map c m2))).
    apply sort_by_permutation.
    - apply entry_canon_total.
    - apply entry_canon_trans.
    - intros a b Ha Hb Hab Hba.
      apply (distinct_keys_entry_eq (map c m1 ++ (k, VUndefined) :: map c m2)); auto.
      + apply in_app_or in Ha as [Ha|[Ha|Ha]]; apply in_or_app.
        * left. now apply filter_In in Ha as [Ha _].
        * right. now left.
        * right. right. now apply filter_In in Ha as [Ha _].
      + apply in_app_or in Hb as [Hb|[Hb|Hb]]; apply in_or_app.
        * left. now apply filter_In in Hb as [Hb _].
        * right. now left.
        * right. right. now apply filter_In in Hb as [Hb _].
      + now apply canon_leb_antisym.
    - symmetry. apply Permutation_middle. }
  rewrite Hs, JSON_members_insert by reflexivity. reflexivity.
Qed.

Lemma generateIdempotencyKey_undefined_property_witness :
  generateIdempotencyKey (js "promo")
    (VObject [(js "couponId", VString (js "c_1"));
              (js "maxRedemptions", VUndefined);
              (js "code", VString (js "SAVE10"))])
  = generateIdempotencyKey (js "promo")
    (VObject [(js "couponId", VString (js "c_1"));
              (js "code", VString (js "SAVE10"))]).
Proof.
  apply (@generateIdempotencyKey_undefined_property (js "promo")
           [(js "couponId", VString (js "c_1"))]
           [(js "code", VString (js "SAVE10"))]
           (js "maxRedemptions")).
  - vm_compute. reflexivity.
  - intros H. apply existsb_eqb_In in H. vm_compute in H. discriminate H.
Defined.

(** ** Assignments to an object *)

Lemma enum_before_later (k k' k'' : jsstring) :
  enum_before k k' = true -> enum_before k'' k' = false ->
  enum_before k'' k = false.
Proof.
  unfold enum_before.
  destruct (array_index k), (array_index k'), (array_index k'');
    try congruence.
  rewrite N.ltb_lt, !N.ltb_ge. lia.
Qed.

Lemma enum_before_irrefl (k k' : jsstring) :
  enum_before k k' = true -> enum_before k' k = false.
Proof.
  unfold enum_before.
  destruct (array_index k), (array_index k'); try congruence.
  rewrite N.ltb_lt, N.ltb_ge. lia.
Qed.

Section Assignments.
Context {A : Type}.
Implicit Types (o : obj A) (k : jsstring) (v : A).

Lemma obj_define_get_same o k v : obj_get (obj_define o k v) k = Some v.
Proof.
  induction o as [|[k' v'] o IH]; simpl.
  - now rewrite jsstring_eqb_refl.
  - destruct (jsstring_eqb k k') eqn:E; simpl.
    + now rewrite jsstring_eqb_refl.
    + destruct (enum_before k k'); simpl.
      * now rewrite jsstring_eqb_refl.
      * rewrite jsstring_eqb_sym, E. exact IH.
Qed.

Lemma obj_define_get_other o k v k0 :
  k0 <> k -> obj_get (obj_define o k v) k0 = obj_get o k0.
Proof.
  intros Hne. assert (Hk : jsstring_eqb k k0 = false)
    by (apply jsstring_eqb_neq; congruence).
  induction o as [|[k' v'] o IH]; simpl.
  - now rewrite Hk.
  - destruct (jsstring_eqb k k') eqn:E; simpl.
    + apply jsstring_eqb_eq in E. subst k'. now rewrite Hk.
    + destruct (enum_before k k'); simpl.
      * now rewrite Hk.
      * now rewrite IH.
Qed.

Lemma obj_define_In o k v (x : jsstring * A) :
  In x (obj_define o k v) -> x = (k, v) \/ In x o.
Proof.
  induction o as [|[k' v'] o IH]; simpl.
  - intros [<-|[]]. now left.
  - destruct (jsstring_eqb k k'); simpl.
    + intros [<-|H]; auto.
    + destruct (enum_before k k'); simpl.
      * intros [<-|[<-|H]]; auto.
      * intros [<-|H]; auto. apply IH in H as [H|H]; auto.
Qed.

Lemma obj_define_length o k v :
  List.length (obj_define o k v) <= S (List.length o).
Proof.
  induction o as [|[k' v'] o IH]; simpl; [lia|].
  destruct (jsstring_eqb k k'); simpl; [lia|].
  destruct (enum_before k k'); simpl; lia.
Qed.

Lemma obj_set_In o k v (x : jsstring * A) :
  In x (obj_set o k v) -> x = (k, v) \/ In x o.
Proof.
  unfold obj_set. destruct (jsstring_eqb k proto_key); auto.
  apply obj_define_In.
Qed.

Lemma obj_set_length o k v : List.length (obj_set o k v) <= S (List.length o).
Proof.
  unfold obj_set. destruct (jsstring_eqb k proto_key); [lia|].
  apply obj_define_length.
Qed.

Lemma obj_set_get_same o k v :
  k <> proto_key -> obj_get (obj_set o k v) k = Some v.
Proof.
  intros H. unfold obj_set. apply jsstring_eqb_neq in H. rewrite H.
  apply obj_define_get_same.
Qed.

Lemma obj_set_get_other o k v k0 :
  k0 <> k -> obj_get (obj_set o k v) k0 = obj_get o k0.
Proof.
  intros H. unfold obj_set. destruct (jsstring_eqb k proto_key); [reflexivity|].
  now apply obj_define_get_other.
Qed.

Lemma obj_set_no_proto o k v :
  obj_get o proto_key = None -> obj_get (obj_set o k v) proto_key = None.
Proof.
  intros H. unfold obj_set. destruct (jsstring_eqb k proto_key) eqn:E; [exact H|].
  rewrite obj_define_get_other; [exact H|].
  apply jsstring_eqb_neq in E. congruence.
Qed.

(** An assignment in own-key order appends the property. *)
Lemma obj_set_append o k v :
  own_key_order (map fst (o ++ [(k, v)])) -> obj_set o k v = o ++ [(k, v)].
Proof.
  unfold own_key_order, obj_set. intros [Hs [Hd Hp]].
  assert (E : jsstring_eqb k proto_key = false).
  { apply jsstring_eqb_neq. intros ->. apply Hp.
    rewrite map_app. apply in_or_app. right. now left. }
  rewrite E. clear E Hp.
  induction o as [|[k' v'] o IH]; simpl in *; [reflexivity|].
  apply StronglySorted_inv in Hs as [Hs Hk'].
  inversion Hd as [|? ? Hn Hd']; subst.
  rewrite Forall_forall in Hk'.
  assert (Hin : In k (map fst (o ++ [(k, v)])))
    by (rewrite map_app; apply in_or_app; right; now left).
  destruct (jsstring_eqb k k') eqn:E.
  { apply jsstring_eqb_eq in E. subst. contradiction. }
  rewrite (Hk' k Hin). f_equal. now apply IH.
Qed.
End Assignments.

Lemma own_key_order_nil : own_key_order [].
Proof. repeat split; [constructor | constructor | intros []]. Qed.

Lemma own_key_order_cons_inv (k : jsstring) (l : list jsstring) :
  own_key_order (k :: l) -> own_key_order l.
Proof.
  intros [Hs [Hd Hp]]. repeat split.
  - now apply StronglySorted_inv in Hs.
  - now inversion Hd.
  - intros H. apply Hp. now right.
Qed.

Lemma own_key_orderb_spec (l : list jsstring) :
  own_key_orderb l = true -> own_key_order l.
Proof.
  induction l as [|k l IH]; simpl; intros H; [apply own_key_order_nil|].
  apply andb_true_iff in H as [H H4]. apply andb_true_iff in H as [H H3].
  apply andb_true_iff in H as [H1 H2].
  destruct (IH H4) as [Hs [Hd Hp]]. repeat split.
  - constructor; [exact Hs|]. rewrite forallb_forall in H1.
    apply Forall_forall. intros k' Hk'. apply H1 in Hk'.
    now apply negb_true_iff in Hk'.
  - constructor; [|exact Hd]. intros Hin. apply existsb_eqb_In in Hin.
    rewrite Hin in H2. discriminate.
  - intros [E|Hin]; [|contradiction]. subst.
    rewrite jsstring_eqb_refl in H3. discriminate.
Qed.

(** Assigning the properties of an object in own-key order rebuilds it. *)
Lemma Object_assign_rebuild {A} (acc l : obj A) :
  own_key_order (map fst (acc ++ l)) -> Object_assign acc l = acc ++ l.
Proof.
  unfold Object_assign, Object_entries. revert acc.
  induction l as [|[k v] l IH]; intros acc H; simpl.
  - now rewrite app_nil_r.
  - assert (H' : own_key_order (map fst ((acc ++ [(k, v)]) ++ l)))
      by (now rewrite <- app_assoc).
    rewrite obj_set_append.
    + rewrite IH by exact H'. now rewrite <- app_assoc.
    + clear IH H. revert H'. generalize (acc ++ [(k, v)]). clear.
      intros l0 H. induction l as [|e l IH] using rev_ind.
      * now rewrite app_nil_r in H.
      * apply IH. rewrite app_assoc in H.
        destruct H as [Hs [Hd Hp]]. rewrite map_app in Hs, Hd, Hp.
        repeat split.
        -- clear Hd Hp. revert Hs. generalize (map fst (l0 ++ l)).
           intros l1. induction l1 as [|x l1 IH1]; simpl; intros Hs; [constructor|].
           apply StronglySorted_inv in Hs as [Hs Hx].
           constructor; [now apply IH1|].
           apply Forall_app in Hx. tauto.
        -- now apply NoDup_app_remove_r in Hd.
        -- intros Hin. apply Hp. apply in_or_app. now left.
Qed.

(** Assignments keep the own-key order. *)
Lemma obj_define_own_order {A} (o : obj A) (k : jsstring) (v : A) :
  k <> proto_key ->
  own_key_order (map fst o) -> own_key_order (map fst (obj_define o k v)).
Proof.
  intros Hk. induction o as [|[k' v'] o IH]; simpl; intros H.
  - repeat split.
    + repeat constructor.
    + repeat constructor. intros [].
    + intros [E|[]]. congruence.
  - destruct (jsstring_eqb k k') eqn:E; simpl.
    { apply jsstring_eqb_eq in E. now subst. }
    apply jsstring_eqb_neq in E.
    pose proof (own_key_order_cons_inv H) as Ho.
    destruct H as [Hs [Hd Hp]].
    apply StronglySorted_inv in Hs as [Hs Hk'].
    inversion Hd as [|? ? Hn Hd']; subst.
    destruct (enum_before k k') eqn:B; simpl.
    + assert (Hnew : ~ In k (map fst o)).
      { intros Hin. rewrite Forall_forall in Hk'. apply Hk' in Hin.
        congruence. }
      repeat split.
      * constructor; [now constructor|].
        constructor; [now apply enum_before_irrefl|].
        eapply Forall_impl; [|exact Hk']. intros k'' H''.
        eapply enum_before_later; eassumption.
      * constructor; [|now constructor].
        intros [E'|Hin]; [congruence | contradiction].
      * intros [E'|Hin]; [congruence|]. apply Hp. exact Hin.
    + destruct (IH Ho) as [Hs2 [Hd2 Hp2]].
      assert (Hkeys : forall x, In x (map fst (obj_define o k v)) ->
                                x = k \/ In x (map fst o)).
      { intros x Hx. apply in_map_iff in Hx as [[kx vx] [<- Hx]].
        apply obj_define_In in Hx as [Hx|Hx].
        - left. now injection Hx as -> _.
        - right. change kx with (fst (kx, vx)). now apply in_map. }
      repeat split.
      * constructor; [exact Hs2|].
        apply Forall_forall. intros x Hx. apply Hkeys in Hx as [->|Hx].
        -- exact B.
        -- rewrite Forall_forall in Hk'. now apply Hk'.
      * constructor; [|exact Hd2].
        intros Hin. apply Hkeys in Hin as [->|Hin]; [congruence | contradiction].
      * intros [E'|Hin]; [apply Hp; now left|]. contradiction.
Qed.

Lemma obj_set_own_order {A} (o : obj A) (k : jsstring) (v : A) :
  own_key_order (map fst o) -> own_key_order (map fst (obj_set o k v)).
Proof.
  unfold obj_set. destruct (jsstring_eqb k proto_key) eqn:E; [auto|].
  apply obj_define_own_order. now apply jsstring_eqb_neq.
Qed.

(** ** The two passes of [createMetadata] *)

Lemma forEach_fold {A S} (f : S -> A -> completion S) (g : S -> A -> S)
      (l : list A) (s : S) :
  (forall s a, In a l -> f s a = Normal (g s a)) ->
  forEach f l s = Normal (fold_left g l s).
Proof.
  revert s. induction l as [|a l IH]; intros s H; simpl; [reflexivity|].
  rewrite H by now left. simpl. apply IH. intros s' a' Ha. apply H. now right.
Qed.

(** The first pass stores the entries of [spec_filter_coerce], in order. *)
Lemma keep_defined_pass (m : obj value) (acc : obj jsstring) :
  forEach keep_defined m acc
  = (r <- spec_filter_coerce m ;; Normal (Object_assign acc r)).
Proof.
  revert acc. induction m as [|[k v] m IH]; intros acc; [reflexivity|].
  cbn [forEach keep_defined spec_filter_coerce].
  destruct (is_nullish v); cbn [negb bind].
  - apply IH.
  - destruct (ToString v) as [s|e]; cbn [bind]; [|reflexivity].
    rewrite IH. destruct (spec_filter_coerce m); reflexivity.
Qed.

Lemma Object_assign_In {A} (l acc : obj A) (x : jsstring * A) :
  In x (Object_assign acc l) -> In x acc \/ In x l.
Proof.
  unfold Object_assign, Object_entries. revert acc.
  induction l as [|[k v] l IH]; intros acc; simpl; [auto|].
  intros H. apply IH in H as [H|H]; [|auto].
  apply obj_set_In in H as [->|H]; auto.
Qed.

Lemma Object_assign_length {A} (l acc : obj A) :
  List.length (Object_assign acc l) <= List.length acc + List.length l.
Proof.
  unfold Object_assign, Object_entries. revert acc.
  induction l as [|[k v] l IH]; intros acc; simpl; [lia|].
  specialize (IH (obj_set acc k v)). pose proof (obj_set_length acc k v). lia.
Qed.

Lemma Object_assign_own_order {A} (l acc : obj A) :
  own_key_order (map fst acc) -> own_key_order (map fst (Object_assign acc l)).
Proof.
  unfold Object_assign, Object_entries. revert acc.
  induction l as [|[k v] l IH]; intros acc H; simpl; [exact H|].
  apply IH. now apply obj_set_own_order.
Qed.

(** The second pass, entry by entry. *)
Lemma truncate_pass (filtered : obj jsstring) (l : obj jsstring) (s : obj jsstring) :
  (forall e, In e l -> obj_get filtered (fst e) = Some (snd e)) ->
  forEach (truncate_entry filtered) (map fst l) s
  = Normal (Object_assign s (map truncated l)).
Proof.
  unfold Object_assign, Object_entries. revert s.
  induction l as [|[k v] l IH]; intros s H; [reflexivity|].
  cbn [map fst forEach]. unfold truncate_entry at 1, read_string.
  assert (Hk := H (k, v) (or_introl eq_refl)). cbn [fst snd] in Hk.
  rewrite Hk. cbn [bind fold_left].
  apply IH. intros e He. apply H. now right.
Qed.

Lemma cut_length (n : nat) (s : jsstring) : List.length (cut n s) <= n.
Proof.
  unfold cut, substring0. destruct (n <? List.length s) eqn:E.
  - apply firstn_le_length.
  - apply Nat.ltb_ge in E. exact E.
Qed.

Lemma cut_short (n : nat) (s : jsstring) : List.length s <= n -> cut n s = s.
Proof.
  unfold cut. intros H. apply Nat.ltb_ge in H. now rewrite H.
Qed.

Lemma cut_prefix (n : nat) (s : jsstring) : exists i, cut n s = firstn i s.
Proof.
  unfold cut, substring0. destruct (n <? List.length s).
  - now exists n.
  - exists (List.length s). now rewrite firstn_all.
Qed.

(** What [createMetadata] returns, in terms of the filtered object. *)
Lemma createMetadata_unfold (m : obj value) (r : obj jsstring) :
  spec_filter_coerce m = Normal r ->
  createMetadata m =
  Normal (if 50 <? List.length (Object_assign [] r)
          then Object_fromEntries (firstn 50 (Object_assign [] r))
          else Object_assign [] (map truncated (Object_assign [] r))).
Proof.
  intros Hr. unfold createMetadata, Object_entries, Object_keys.
  rewrite keep_defined_pass, Hr. cbn [bind].
  rewrite length_map.
  destruct (50 <? List.length (Object_assign [] r)); [reflexivity|].
  apply truncate_pass. intros [k v] He. simpl.
  apply obj_get_distinct; [|exact He].
  apply (Object_assign_own_order r []). apply own_key_order_nil.
Qed.

Lemma createMetadata_throw (m : obj value) (e : js_error) :
  spec_filter_coerce m = Throw e -> createMetadata m = Throw e.
Proof.
  intros Hr. unfold createMetadata, Object_entries.
  now rewrite keep_defined_pass, Hr.
Qed.

Lemma within_limits_spec (m : obj jsstring) :
  within_limits m = true <->
  List.length m <= 50
  /\ forall k v, In (k, v) m -> List.length k <= 40 /\ List.length v <= 500.
Proof.
  unfold within_limits. rewrite andb_true_iff, Nat.leb_le, forallb_forall.
  split; intros [H1 H2]; (split; [exact H1|]).
  - intros k v Hin. apply H2 in Hin. simpl in Hin.
    apply andb_true_iff in Hin. now rewrite !Nat.leb_le in Hin.
  - intros [k v] Hin. apply H2 in Hin. simpl.
    apply andb_true_iff. now rewrite !Nat.leb_le.
Qed.

Lemma map_truncated_short (l : obj jsstring) :
  (forall k v, In (k, v) l -> List.length k <= 40 /\ List.length v <= 500) ->
  map truncated l = l.
Proof.
  intros H. rewrite <- (map_id l) at 2. apply map_ext_in. intros [k v] Hin.
  destruct (H k v Hin) as [H1 H2]. unfold truncated. simpl.
  now rewrite !cut_short.
Qed.

(** Without the early return, the result is within the three limits. *)
Lemma truncating_branch_within_limits (f : obj jsstring) :
  List.length f <= 50 ->
  within_limits (Object_assign [] (map truncated f)) = true.
Proof.
  intros Hlen. apply within_limits_spec. split.
  - pose proof (Object_assign_length (map truncated f) []) as H.
    rewrite length_map in H. simpl in H. lia.
  - intros k v Hin. apply Object_assign_In in Hin as [[]|Hin].
    apply in_map_iff in Hin as [[k0 v0] [E _]]. unfold truncated in E.
    injection E as <- <-. split; apply cut_length.
Qed.

(** ** [String(value)] *)

Lemma ToString_array (elems : list value) :
  ToString (VArray elems)
  = (ps <- join_parts elems ;; Normal (join_with (js ",") ps)).
Proof. reflexivity. Qed.

(** A value is converted without an exception exactly when no object with
    an own property [toString] is met. *)
Lemma ToString_stringable (v : value) :
  stringable v = true -> exists s, ToString v = Normal s.
Proof.
  induction v as [ | | | | | elems IH | props IH ] using value_ind;
    intros H; try (eexists; reflexivity).
  - rewrite ToString_array.
    assert (G : exists ps, join_parts elems = Normal ps).
    { simpl in H. induction elems as [|e elems IHe]; [eexists; reflexivity|].
      simpl in H. apply andb_true_iff in H as [He Hl].
      apply Forall_cons_iff in IH as [IH1 IH2].
      destruct (IHe IH2 Hl) as [ps Hps].
      destruct (IH1 He) as [s Hs].
      cbn [join_parts]. rewrite Hps.
      destruct e; try (rewrite Hs); eexists; reflexivity. }
    destruct G as [ps ->]. eexists. reflexivity.
  - simpl in H. apply negb_true_iff in H. simpl. rewrite H.
    eexists. reflexivity.
Qed.

Lemma ToString_not_stringable (v : value) :
  stringable v = false -> ToString v = Throw TypeError.
Proof.
  induction v as [ | | | | | elems IH | props IH ] using value_ind;
    intros H; try discriminate.
  - rewrite ToString_array.
    assert (G : join_parts elems = Throw TypeError).
    { simpl in H. induction elems as [|e elems IHe]; [discriminate|].
      simpl in H. apply Forall_cons_iff in IH as [IH1 IH2].
      cbn [join_parts].
      destruct (stringable e) eqn:He.
      - simpl in H. rewrite (IHe IH2 H).
        destruct (ToString_stringable e He) as [s Hs].
        destruct e; try rewrite Hs; reflexivity.
      - rewrite (IH1 eq_refl).
        destruct e; try discriminate; reflexivity. }
    now rewrite G.
  - simpl in H. apply negb_false_iff in H. simpl. now rewrite H.
Qed.

Lemma spec_filter_coerce_total (m : obj value) :
  forallb (fun e => stringable (snd e)) m = true ->
  exists r, spec_filter_coerce m = Normal r.
Proof.
  induction m as [|[k v] m IH]; simpl; intros H; [eexists; reflexivity|].
  apply andb_true_iff in H as [Hv Hm].
  destruct (IH Hm) as [r Hr]. rewrite Hr.
  destruct (is_nullish v); [eexists; reflexivity|].
  destruct (ToString_stringable v Hv) as [s ->]. eexists. reflexivity.
Qed.

Lemma spec_filter_coerce_strings (m : obj jsstring) :
  spec_filter_coerce (strings m) = Normal m.
Proof.
  induction m as [|[k s] m IH]; [reflexivity|].
  change (strings ((k, s) :: m)) with ((k, VString s) :: strings m).
  cbn [spec_filter_coerce is_nullish ToString bind]. now rewrite IH.
Qed.

Lemma spec_filter_coerce_In (m : obj value) (r : obj jsstring) (k s : jsstring) :
  spec_filter_coerce m = Normal r -> In (k, s) r ->
  exists v, In (k, v) m /\ is_nullish v = false /\ ToString v = Normal s.
Proof.
  revert r. induction m as [|[k0 v0] m IH]; simpl; intros r Hr Hin.
  - injection Hr as <-. destruct Hin.
  - destruct (is_nullish v0) eqn:N.
    + destruct (IH r Hr Hin) as [v [H1 H2]]. exists v. auto.
    + destruct (ToString v0) as [s0|] eqn:T; [|discriminate].
      destruct (spec_filter_coerce m) as [r0|] eqn:R; [|discriminate].
      simpl in Hr. injection Hr as <-. destruct Hin as [E|Hin].
      * injection E as -> ->. exists v0. auto.
      * destruct (IH r0 eq_refl Hin) as [v [H1 H2]]. exists v. auto.
Qed.

Lemma Object_fromEntries_In {A} (l : obj A) (x : jsstring * A) :
  In x (Object_fromEntries l) -> In x l.
Proof.
  unfold Object_fromEntries.
  assert (G : forall acc, In x (fold_left (fun o e => obj_define o (fst e) (snd e)) l acc)
                          -> In x acc \/ In x l).
  { induction l as [|[k v] l IH]; intros acc; simpl; [auto|].
    intros H. apply IH in H as [H|H]; [|auto].
    apply obj_define_In in H as [->|H]; auto. }
  intros H. apply G in H as [[]|H]. exact H.
Qed.

(** ** The sanitizer on inputs within the limits *)

(** An object in own-key order and within the limits is returned as it is. *)
Lemma createMetadata_small (m : obj value) (r : obj jsstring) :
  spec_filter_coerce m = Normal r ->
  own_key_order (map fst r) ->
  within_limits r = true ->
  createMetadata m = Normal r.
Proof.
  intros Hr Ho Hl. rewrite (createMetadata_unfold m Hr).
  rewrite (Object_assign_rebuild [] r) by exact Ho. simpl app.
  apply within_limits_spec in Hl as [Hlen Hb].
  apply Nat.ltb_ge in Hlen. rewrite Hlen.
  rewrite (map_truncated_short r Hb).
  now rewrite (Object_assign_rebuild [] r) by exact Ho.
Qed.

Lemma spec_filter_coerce_throw (m : obj value) :
  forallb (fun e => stringable (snd e)) m = false ->
  spec_filter_coerce m = Throw TypeError.
Proof.
  induction m as [|[k v] m IH]; simpl; intros H; [discriminate|].
  destruct (stringable v) eqn:Hv; simpl in H.
  - rewrite (IH H). destruct (is_nullish v); [reflexivity|].
    destruct (ToString_stringable v Hv) as [s ->]. reflexivity.
  - rewrite (ToString_not_stringable v Hv).
    destruct v; try discriminate; reflexivity.
Qed.

(** ** The limits *)

(** When at most 50 entries are left after the first pass, the result is
    within the three limits. *)
Lemma createMetadata_limits_without_overflow (m : obj value) (r out : obj jsstring) :
  spec_filter_coerce m = Normal r ->
  List.length (Object_assign [] r) <= 50 ->
  createMetadata m = Normal out ->
  within_limits out = true.
Proof.
  intros Hr Hlen. rewrite (createMetadata_unfold m Hr).
  pose proof Hlen as Hlt. apply Nat.ltb_ge in Hlt. rewrite Hlt.
  intros H. injection H as <-. now apply truncating_branch_within_limits.
Qed.

Lemma Object_fromEntries_length {A} (l : obj A) :
  List.length (Object_fromEntries l) <= List.length l.
Proof.
  unfold Object_fromEntries.
  assert (G : forall acc,
             List.length (fold_left (fun o e => obj_define o (fst e) (snd e)) l acc)
             <= List.length acc + List.length l).
  { induction l as [|[k v] l IH]; intros acc; simpl; [lia|].
    specialize (IH (obj_define acc k v)).
    pose proof (obj_define_length acc k v). lia. }
  apply (G []).
Qed.

(** The result never has more than 50 entries. *)
Lemma createMetadata_at_most_50 (m : obj value) (out : obj jsstring) :
  createMetadata m = Normal out -> List.length out <= 50.
Proof.
  destruct (spec_filter_coerce m) as [r|e] eqn:Hr.
  2:{ rewrite (createMetadata_throw m Hr). discriminate. }
  rewrite (createMetadata_unfold m Hr).
  remember (firstn 50 (Object_assign [] r)) as first50 eqn:Hf.
  destruct (50 <? List.length (Object_assign [] r)) eqn:E; intros H; injection H as <-.
  - etransitivity; [apply Object_fromEntries_length|]. subst first50.
    apply firstn_le_length.
  - apply Nat.ltb_ge in E.
    pose proof (Object_assign_length (map truncated (Object_assign [] r)) []) as H.
    rewrite length_map in H. simpl in H. lia.
Qed.

(** C3 fails on the code: with more than 50 entries after the first pass,
    the early [return] hands back the first 50 entries as they are, and the
    cut to 40 and 500 characters is not reached.  On [oversized_metadata]
    the result has 50 entries and keeps the key of 41 characters with its
    value of 501 characters. *)
Theorem createMetadata_early_return_exceeds_limits :
  exists out,
    createMetadata oversized_metadata = Normal out
    /\ List.length out = 50
    /\ obj_get out (repeat 107%N 41) = Some (repeat 118%N 501)
    /\ within_limits out = false.
Proof.
  eexists. split; [vm_compute; reflexivity|].
  split; [reflexivity|]. split; vm_compute; reflexivity.
Qed.

(** ** Absent values *)

(** C6, as stated, fails: of 51 entries with string values the last one is
    dropped, though its value is neither [undefined] nor [null]. *)
Lemma drops_defined_entry_counterexample :
  createMetadata (numbered_entries 51 (VString (js "1")))
  <> spec_filter_coerce (numbered_entries 51 (VString (js "1"))).
Proof.
  intros H.
  apply (f_equal (fun c => match c with
                           | Normal out => List.length out
                           | Throw _ => 0
                           end)) in H.
  vm_compute in H. discriminate H.
Qed.

(** C6 (amended).  For every input mapping whose entries with a value other
    than [undefined] and [null], taken with the string forms of their
    values, are listed in own-key order (so without [__proto__]) and are
    within the three limits, [createMetadata] returns exactly these entries.
    For every input mapping, each entry of the result comes from an entry
    whose value is neither [undefined] nor [null]: its key is a prefix of
    that key and its value a prefix of the string form of that value.  In
    particular [createMetadata({a: "1", b: undefined, c: null})] is
    [{a: "1"}]. *)
Theorem createMetadata_drops_absent :
  (forall m r,
      spec_filter_coerce m = Normal r ->
      own_key_orderb (Object_keys r) = true ->
      within_limits r = true ->
      createMetadata m = Normal r)
  /\ (forall m out k' s',
         createMetadata m = Normal out -> In (k', s') out ->
         exists k v s i j,
           In (k, v) m /\ is_nullish v = false /\ ToString v = Normal s
           /\ k' = firstn i k /\ s' = firstn j s)
  /\ createMetadata
       [(js "a", VString (js "1")); (js "b", VUndefined); (js "c", VNull)]
     = Normal [(js "a", js "1")].
Proof.
  split; [|split].
  - intros m r Hr Ho Hl. apply createMetadata_small; auto.
    now apply own_key_orderb_spec.
  - intros m out k' s' Hc Hin.
    destruct (spec_filter_coerce m) as [r|e] eqn:Hr.
    2:{ rewrite (createMetadata_throw m Hr) in Hc. discriminate. }
    rewrite (createMetadata_unfold m Hr) in Hc. injection Hc as <-.
    assert (Hsrc : forall k s, In (k, s) (Object_assign [] r) ->
              exists v, In (k, v) m /\ is_nullish v = false /\ ToString v = Normal s).
    { intros k s H. apply Object_assign_In in H as [[]|H].
      eapply spec_filter_coerce_In; eassumption. }
    destruct (50 <? List.length (Object_assign [] r)).
    + apply Object_fromEntries_In in Hin.
      apply (@In_firstn _ 50 (Object_assign [] r)) in Hin.
      apply Hsrc in Hin as [v [H1 [H2 H3]]].
      exists k', v, s', (List.length k'), (List.length s').
      now rewrite !firstn_all.
    + apply Object_assign_In in Hin as [[]|Hin].
      apply in_map_iff in Hin as [[k s] [E Hin]].
      unfold truncated in E. cbn [fst snd] in E. injection E as <- <-.
      apply Hsrc in Hin as [v [H1 [H2 H3]]].
      destruct (cut_prefix 40 k) as [i Hi], (cut_prefix 500 s) as [j Hj].
      exists k, v, s, i, j. auto.
  - vm_compute. reflexivity.
Qed.

Lemma createMetadata_drops_absent_witness :
  createMetadata
    [(js "7", VNumber (Num_int 500)); (js "tenantId", VString (js "tenant_123"));
     (js "userId", VNull); (js "source", VUndefined);
     (js "live", VBool true)]
  = Normal [(js "7", js "500"); (js "tenantId", js "tenant_123");
            (js "live", js "true")].
Proof.
  apply (proj1 createMetadata_drops_absent); vm_compute; reflexivity.
Defined.

(** ** Idempotence *)

(** C8.  For every mapping with string values that is within the three
    limits, sanitizing the sanitized mapping gives the sanitized mapping
    again. *)
Theorem createMetadata_idempotent (m : obj jsstring) :
  within_limits m = true ->
  exists r,
    createMetadata (strings m) = Normal r
    /\ createMetadata (strings r) = Normal r.
Proof.
  intros Hl. exists (Object_assign [] m).
  apply within_limits_spec in Hl as [Hlen Hb].
  assert (Ho : own_key_order (map fst (Object_assign [] m)))
    by (apply Object_assign_own_order, own_key_order_nil).
  assert (Hlim : within_limits (Object_assign [] m) = true).
  { apply within_limits_spec. split.
    - pose proof (Object_assign_length m []) as H. simpl in H. lia.
    - intros k v Hin. apply Object_assign_In in Hin as [[]|Hin]. now apply Hb. }
  assert (Hfix : createMetadata (strings (Object_assign [] m))
                 = Normal (Object_assign [] m)).
  { apply createMetadata_small; auto. apply spec_filter_coerce_strings. }
  split; [|exact Hfix].
  rewrite (createMetadata_unfold (strings m) (spec_filter_coerce_strings m)).
  apply within_limits_spec in Hlim as [Hlen' Hb'].
  apply Nat.ltb_ge in Hlen'. rewrite Hlen'.
  rewrite (map_truncated_short _ Hb').
  now rewrite (Object_assign_rebuild [] (Object_assign [] m)) by exact Ho.
Qed.

Lemma createMetadata_idempotent_witness :
  exists r,
    createMetadata (strings [(js "tenantId", js "tenant_123"); (js "2", js "b");
                             (js "points", js "500"); (js "1", js "a")])
    = Normal r
    /\ createMetadata (strings r) = Normal r.
Proof.
  apply createMetadata_idempotent. vm_compute. reflexivity.
Defined.

(** ** Totality *)


(** *** Within the limits of the engine *)

Lemma enter_fits (E : engine) (s : site) (left : nat) :
  frame E s <= left -> enter E s left = Returned (left - frame E s).
Proof.
  intros H. unfold enter. apply Nat.ltb_ge in H. now rewrite H.
Qed.

Lemma enter_exhausted (E : engine) (s : site) (left : nat) :
  left < frame E s -> enter E s left = Raised RangeError.
Proof.
  intros H. unfold enter. apply Nat.ltb_lt in H. now rewrite H.
Qed.

Lemma new_string_fits (E : engine) (s : jsstring) :
  List.length s <= max_string_length E -> new_string E s = Returned s.
Proof.
  intros H. unfold new_string. apply Nat.ltb_ge in H. now rewrite H.
Qed.

Lemma forEach_run_fold {A S} (f : S -> A -> ended S) (g : S -> A -> S)
      (l : list A) (s : S) :
  (forall s a, In a l -> f s a = Returned (g s a)) ->
  forEach_run f l s = Returned (fold_left g l s).
Proof.
  revert s. induction l as [|a l IH]; intros s H; simpl; [reflexivity|].
  rewrite H by now left. simpl. apply IH. intros s' a' Ha. apply H. now right.
Qed.

Lemma list_max_map_In {A} (f : A -> nat) (l : list A) (x : A) :
  In x l -> f x <= list_max (map f l).
Proof.
  intros H. assert (G : list_max (map f l) <= list_max (map f l)) by lia.
  apply list_max_le in G. rewrite Forall_forall in G. apply G.
  now apply in_map.
Qed.

(** Within the stack the recursion of [sortObjectKeys] takes on a value,
    the call returns what [sortObjectKeys] computes. *)
Lemma sortObjectKeys_run_fits (E : engine) (o : value) :
  forall left, sort_stack E o <= left ->
               sortObjectKeys_run E left o = Returned (sortObjectKeys o).
Proof.
  induction o as [ | | | | | elems IH | props IH ] using value_ind;
    intros left H; cbn [sort_stack] in H;
    cbn [sortObjectKeys_run sortObjectKeys];
    rewrite enter_fits by lia; cbn [and_then]; try reflexivity.
  - (* arrays *)
    rewrite enter_fits by lia. cbn [and_then].
    set (left' := left - frame E call_sortObjectKeys - frame E call_map).
    assert (Hl : list_max (map (sort_stack E) elems) <= left')
      by (unfold left'; lia).
    clear H.
    assert (G : (fix mapped (l : list value) : ended (list value) :=
                   match l with
                   | [] => Returned []
                   | e :: l' =>
                       e' <== sortObjectKeys_run E left' e ;;
                       r <== mapped l' ;;
                       Returned (e' :: r)
                   end) elems
                = Returned (map sortObjectKeys elems)).
    { induction elems as [|e elems IHe]; [reflexivity|].
      apply Forall_cons_iff in IH as [IH1 IH2].
      simpl in Hl. rewrite IH1 by lia. cbn [and_then].
      rewrite IHe by (assumption || lia). reflexivity. }
    rewrite G. reflexivity.
  - (* objects *)
    rewrite enter_fits by lia. cbn [and_then].
    set (left' := left - frame E call_sortObjectKeys - frame E call_forEach).
    assert (Hl : list_max (map (fun e => sort_stack E (snd e)) props) <= left')
      by (unfold left'; lia).
    clear H.
    erewrite forEach_run_fold; [reflexivity|].
    intros sorted key _.
    assert (G : forall ps,
               Forall (fun e => forall left,
                          sort_stack E (snd e) <= left ->
                          sortObjectKeys_run E left (snd e)
                          = Returned (sortObjectKeys (snd e))) ps ->
               list_max (map (fun e => sort_stack E (snd e)) ps) <= left' ->
               (fix sorted_at (ps : obj value) (key : jsstring) : ended value :=
                  match ps with
                  | [] => Returned VUndefined
                  | (k, v) :: ps' =>
                      if jsstring_eqb k key then sortObjectKeys_run E left' v
                      else sorted_at ps' key
                  end) ps key
               = Returned
                   ((fix sorted_at (ps : obj value) (key : jsstring) : value :=
                       match ps with
                       | [] => VUndefined
                       | (k, v) :: ps' =>
                           if jsstring_eqb k key then sortObjectKeys v
                           else sorted_at ps' key
                       end) ps key)).
    { induction ps as [|[k v] ps IHp]; intros HF Hm; [reflexivity|].
      apply Forall_cons_iff in HF as [HF1 HF2]. simpl in Hm.
      destruct (jsstring_eqb k key).
      - apply HF1. simpl. lia.
      - apply IHp; [exact HF2 | lia]. }
    rewrite (G props IH Hl). reflexivity.
Qed.

(** So does the walk of [JSON.stringify]. *)
Lemma JSON_serialize_run_fits (E : engine) (v : value) :
  forall left, JSON_stack E v <= left ->
               JSON_serialize_run E left v = Returned (JSON_serialize v).
Proof.
  induction v as [ | | | | | elems IH | props IH ] using value_ind;
    intros left H; cbn [JSON_stack] in H; try reflexivity;
    cbn [JSON_serialize_run JSON_serialize];
    rewrite enter_fits by lia; cbn [and_then].
  - set (left' := left - frame E JSON_array).
    assert (Hl : list_max (map (JSON_stack E) elems) <= left')
      by (unfold left'; lia).
    clear H.
    assert (G : (fix elements (l : list value) : ended (list jsstring) :=
                   match l with
                   | [] => Returned []
                   | e :: l' =>
                       s <== JSON_serialize_run E left' e ;;
                       r <== elements l' ;;
                       Returned (match s with Some s => s | None => js "null" end
                                 :: r)
                   end) elems
                = Returned (map (fun e => match JSON_serialize e with
                                          | Some s => s
                                          | None => js "null"
                                          end) elems)).
    { induction elems as [|e elems IHe]; [reflexivity|].
      apply Forall_cons_iff in IH as [IH1 IH2].
      simpl in Hl. rewrite IH1 by lia. cbn [and_then].
      rewrite IHe by (assumption || lia). reflexivity. }
    rewrite G. reflexivity.
  - set (left' := left - frame E JSON_object).
    assert (Hl : list_max (map (fun e => JSON_stack E (snd e)) props) <= left')
      by (unfold left'; lia).
    clear H.
    assert (G : (fix members (ps : obj value) : ended (list jsstring) :=
                   match ps with
                   | [] => Returned []
                   | (k, e) :: ps' =>
                       s <== JSON_serialize_run E left' e ;;
                       r <== members ps' ;;
                       Returned (match s with
                                 | Some s => (QuoteJSONString k ++ js ":" ++ s) :: r
                                 | None => r
                                 end)
                   end) props
                = Returned (JSON_members props)).
    { induction props as [|[k e] props IHp]; [reflexivity|].
      apply Forall_cons_iff in IH as [IH1 IH2].
      simpl in Hl. simpl in IH1. rewrite IH1 by lia. cbn [and_then].
      rewrite IHp by (assumption || lia). cbn [and_then JSON_members].
      destruct (JSON_serialize e); reflexivity. }
    rewrite G. reflexivity.
Qed.

Lemma fold_obj_set_In {A} (g : jsstring -> A) (L : list jsstring) (s : obj A)
      (x : jsstring * A) :
  In x (fold_left (fun sorted key => obj_set sorted key (g key)) L s) ->
  In x s \/ exists k, x = (k, g k).
Proof.
  revert s. induction L as [|k L IH]; intros s H; simpl in H; [now left|].
  apply IH in H as [H|H]; [|now right].
  apply obj_set_In in H as [->|H]; [right; now exists k | now left].
Qed.

Lemma list_max_map_le {A} (f g : A -> nat) (l : list A) :
  Forall (fun x => f x <= g x) l -> list_max (map f l) <= list_max (map g l).
Proof.
  induction 1 as [|x l Hx H IH]; simpl; lia.
Qed.

(** Sorting does not deepen a value. *)
Lemma JSON_stack_sortObjectKeys (E : engine) (v : value) :
  JSON_stack E (sortObjectKeys v) <= JSON_stack E v.
Proof.
  induction v as [ | | | | | elems IH | props IH ] using value_ind;
    try (simpl; lia).
  - cbn [sortObjectKeys JSON_stack]. rewrite map_map.
    apply Nat.add_le_mono_l. now apply list_max_map_le.
  - rewrite sortObjectKeys_object. cbn [JSON_stack].
    apply Nat.add_le_mono_l. apply list_max_le. apply Forall_forall.
    intros n Hn. apply in_map_iff in Hn as [x [<- Hx]].
    apply fold_obj_set_In in Hx as [[]|[k ->]]. cbn [snd].
    unfold Get. destruct (obj_get props k) as [v|] eqn:G; [|simpl; lia].
    apply obj_get_In in G. rewrite Forall_forall in IH.
    etransitivity; [exact (IH _ G)|].
    exact (list_max_map_In (fun e => JSON_stack E (snd e)) props (k, v) G).
Qed.

(** Within the limits the call returns the key. *)
Lemma generateIdempotencyKey_run_fits (E : engine) (o : jsstring) (p : value) :
  key_fits E o p = true ->
  generateIdempotencyKey_run E o p = Returned (generateIdempotencyKey o p).
Proof.
  unfold key_fits. rewrite !andb_true_iff, !Nat.leb_le.
  intros [[[Hs Hj] Ht] Hk].
  unfold generateIdempotencyKey_run, JSON_stringify_run.
  rewrite (sortObjectKeys_run_fits E p Hs). cbn [and_then].
  rewrite JSON_serialize_run_fits
    by (etransitivity; [apply JSON_stack_sortObjectKeys | exact Hj]).
  cbn [and_then]. unfold JSON_stringify, template_subst in Ht.
  assert (G : (match JSON_serialize (sortObjectKeys p) with
               | Some s => s' <== new_string E s ;; Returned (Some s')
               | None => Returned None
               end) = Returned (JSON_serialize (sortObjectKeys p))).
  { destruct (JSON_serialize (sortObjectKeys p)) as [s|]; [|reflexivity].
    rewrite new_string_fits; [reflexivity|].
    rewrite !length_app in Ht. lia. }
  rewrite G. cbn [and_then].
  rewrite new_string_fits by exact Ht. cbn [and_then].
  rewrite <- (generateIdempotencyKey_length o p) in Hk.
  exact (new_string_fits E _ Hk).
Qed.

(** Beyond the stack the call ends with a [RangeError]. *)
Lemma sortObjectKeys_run_exhausted (E : engine) (n : nat) :
  0 < frame E call_sortObjectKeys ->
  forall left, left <= n ->
               sortObjectKeys_run E left (nested_arrays n) = Raised RangeError.
Proof.
  intros Hc. induction n as [|n IH]; intros left H;
    cbn [nested_arrays sortObjectKeys_run].
  - rewrite enter_exhausted by lia. reflexivity.
  - destruct (Nat.lt_ge_cases left (frame E call_sortObjectKeys)) as [L|L].
    + rewrite enter_exhausted by exact L. reflexivity.
    + rewrite enter_fits by exact L. cbn [and_then].
      set (left' := left - frame E call_sortObjectKeys).
      destruct (Nat.lt_ge_cases left' (frame E call_map)) as [M|M].
      * rewrite enter_exhausted by exact M. reflexivity.
      * rewrite enter_fits by exact M. cbn [and_then].
        rewrite IH by (unfold left'; lia). reflexivity.
Qed.

Lemma join_with_part_length (sep : jsstring) (ps : list jsstring) (p : jsstring) :
  In p ps -> List.length p <= List.length (join_with sep ps).
Proof.
  induction ps as [|q ps IH]; intros H; [destruct H|].
  destruct ps as [|q' ps].
  - destruct H as [->|[]]. simpl. lia.
  - change (join_with sep (q :: q' :: ps))
      with (q ++ sep ++ join_with sep (q' :: ps)).
    rewrite !length_app. destruct H as [->|H]; [lia|].
    specialize (IH H). lia.
Qed.

(** Within the stack and the greatest length, [String(value)] returns what
    [ToString] computes. *)
Lemma ToString_run_fits (E : engine) (v : value) :
  forall left s,
    join_stack E v <= left ->
    ToString v = Normal s ->
    match v with
    | VArray _ => List.length s <= max_string_length E
    | _ => True
    end ->
    ToString_run E left v = Returned s.
Proof.
  induction v as [ | | | | | elems IH | props IH ] using value_ind;
    intros left str Hst Hs Hlen;
    try (cbn [ToString_run]; rewrite Hs; reflexivity).
  cbn [join_stack] in Hst. cbn [ToString_run].
  rewrite enter_fits by lia. cbn [and_then].
  set (left' := left - frame E call_join).
  assert (Hl : list_max (map (join_stack E) elems) <= left')
    by (unfold left'; lia).
  clear Hst. rewrite ToString_array in Hs.
  destruct (join_parts elems) as [ps|e] eqn:Hp; [|discriminate].
  cbn [bind] in Hs. injection Hs as <-.
  assert (Hps : forall p, In p ps -> List.length p <= max_string_length E).
  { intros p Hin. pose proof (join_with_part_length (js ",") ps p Hin). lia. }
  assert (G : (fix parts (l : list value) : ended (list jsstring) :=
                 match l with
                 | [] => Returned []
                 | e :: l' =>
                     s <== match e with
                           | VUndefined | VNull => Returned []
                           | _ => ToString_run E left' e
                           end ;;
                     r <== parts l' ;;
                     Returned (s :: r)
                 end) elems
              = Returned ps).
  { clear Hlen. revert ps Hp Hps.
    induction elems as [|e elems IHe]; intros ps Hp Hps.
    - injection Hp as <-. reflexivity.
    - apply Forall_cons_iff in IH as [IH1 IH2]. simpl in Hl.
      cbn [join_parts] in Hp.
      assert (He : exists s r,
                 match e with
                 | VUndefined | VNull => Normal []
                 | _ => ToString e
                 end = Normal s
                 /\ join_parts elems = Normal r /\ ps = s :: r).
      { destruct (match e with
                  | VUndefined | VNull => Normal []
                  | _ => ToString e
                  end) as [s|x]; [|discriminate].
        cbn [bind] in Hp. destruct (join_parts elems) as [r|x]; [|discriminate].
        cbn [bind] in Hp. injection Hp as <-. now exists s, r. }
      destruct He as (s & r & Hs & Hr & ->).
      assert (Hrun : match e with
                     | VUndefined | VNull => Returned []
                     | _ => ToString_run E left' e
                     end = Returned s).
      { destruct e; try (injection Hs as <-; reflexivity);
          (apply IH1; [lia | exact Hs |]); try exact I.
        apply Hps. now left. }
      rewrite Hrun. cbn [and_then].
      rewrite (IHe IH2 ltac:(lia) r Hr) by (intros p Hin; apply Hps; now right).
      reflexivity. }
  rewrite G. cbn [and_then]. now apply new_string_fits.
Qed.

(** [String(value)] returns only for the values [ToString] converts. *)
Lemma ToString_run_stringable (E : engine) (v : value) :
  forall left s, ToString_run E left v = Returned s -> stringable v = true.
Proof.
  induction v as [ | | | | | elems IH | props IH ] using value_ind;
    intros left str H; try reflexivity.
  - cbn [ToString_run] in H. cbn [stringable].
    destruct (enter E call_join left) as [left'|x]; [|discriminate].
    cbn [and_then] in H.
    match type of H with
    | and_then (?f elems) _ = _ => destruct (f elems) as [ps|x] eqn:G
    end; [|discriminate].
    clear H. revert ps G.
    induction elems as [|e elems IHe]; intros ps G; [reflexivity|].
    apply Forall_cons_iff in IH as [IH1 IH2]. cbn [forallb].
    simpl in G.
    destruct (match e with
              | VUndefined | VNull => Returned []
              | _ => ToString_run E left' e
              end) as [s1|x] eqn:He; [|discriminate].
    cbn [and_then] in G.
    match type of G with
    | and_then ?t _ = _ => destruct t as [r|x] eqn:G'
    end; [|discriminate].
    rewrite (IHe IH2 r eq_refl), andb_true_r.
    destruct e; try reflexivity; eapply IH1; exact He.
  - cbn [ToString_run ToString] in H. cbn [stringable].
    destruct (obj_has props (js "toString")); [discriminate | reflexivity].
Qed.

Lemma keep_defined_run_fits (E : engine) (m : obj value) :
  forallb (fun e => stringable (snd e) && String_fits E (snd e)) m = true ->
  forall acc,
    forEach_run (keep_defined_run E) m acc = lift (forEach keep_defined m acc).
Proof.
  induction m as [|[k v] m IH]; intros H acc; [reflexivity|].
  cbn [forallb snd] in H. apply andb_true_iff in H as [Hv Hm].
  apply andb_true_iff in Hv as [Hs Hf].
  cbn [forEach_run forEach keep_defined_run keep_defined].
  destruct (is_nullish v); cbn [negb and_then bind]; [now apply IH|].
  destruct (ToString_stringable v Hs) as [s Hv].
  unfold String_fits in Hf. apply andb_true_iff in Hf as [Hst Hlen].
  apply Nat.leb_le in Hst.
  rewrite (@ToString_run_fits E v (stack E) s Hst Hv), Hv.
  - cbn [and_then bind]. now apply IH.
  - destruct v; try exact I. rewrite Hv in Hlen. now apply Nat.leb_le.
Qed.

(** Within the limits [createMetadata] ends as it does on an engine without
    limits. *)
Lemma createMetadata_run_fits (E : engine) (m : obj value) :
  forallb (fun e => stringable (snd e) && String_fits E (snd e)) m = true ->
  createMetadata_run E m = lift (createMetadata m).
Proof.
  intros H. unfold createMetadata_run, createMetadata, Object_entries.
  rewrite (keep_defined_run_fits E m H).
  destruct (forEach keep_defined m []) as [filtered|e];
    cbn [lift and_then bind]; [|reflexivity].
  destruct (50 <? List.length (Object_keys filtered)); reflexivity.
Qed.

Lemma keep_defined_run_stringable (E : engine) (m : obj value) :
  forall acc r,
    forEach_run (keep_defined_run E) m acc = Returned r ->
    forallb (fun e => stringable (snd e)) m = true.
Proof.
  induction m as [|[k v] m IH]; intros acc r H; [reflexivity|].
  cbn [forEach_run keep_defined_run] in H. cbn [forallb snd].
  destruct (is_nullish v) eqn:N; cbn [negb and_then] in H.
  - rewrite (IH _ _ H), andb_true_r. destruct v; try discriminate; reflexivity.
  - destruct (ToString_run E (stack E) v) as [s|x] eqn:Hs; [|discriminate].
    cbn [and_then] in H.
    now rewrite (ToString_run_stringable E v _ Hs), (IH _ _ H).
Qed.

Lemma declared_values_fit (E : engine) (m : obj value) :
  forallb (fun e => declared_value (snd e)) m = true ->
  forallb (fun e => stringable (snd e) && String_fits E (snd e)) m = true.
Proof.
  induction m as [|[k v] m IH]; [reflexivity|]. cbn [forallb snd].
  intros H. apply andb_true_iff in H as [Hv Hm]. rewrite (IH Hm), andb_true_r.
  destruct v; try discriminate; reflexivity.
Qed.



(** ** Merging *)

Lemma Object_assign_get_absent {A} (m acc : obj A) (k : jsstring) :
  obj_has m k = false -> obj_get (Object_assign acc m) k = obj_get acc k.
Proof.
  unfold Object_assign, Object_entries, obj_has. revert acc.
  induction m as [|[k0 v0] m IH]; intros acc; simpl; [reflexivity|].
  destruct (jsstring_eqb k0 k) eqn:E; [discriminate|].
  intros H. rewrite (IH _ H). apply obj_set_get_other.
  apply jsstring_eqb_neq in E. congruence.
Qed.

Lemma Object_assign_get_present {A} (m acc : obj A) (k : jsstring) (v : A) :
  NoDup (map fst m) -> obj_get m k = Some v -> k <> proto_key ->
  obj_get (Object_assign acc m) k = Some v.
Proof.
  intros Hd Hg Hk. revert acc Hd Hg.
  induction m as [|[k0 v0] m IH]; intros acc Hd Hg; [discriminate|].
  inversion Hd as [|? ? Hn Hd']; subst.
  change (Object_assign acc ((k0, v0) :: m))
    with (Object_assign (obj_set acc k0 v0) m).
  simpl in Hg. destruct (jsstring_eqb k0 k) eqn:E.
  - apply jsstring_eqb_eq in E. subst k0. injection Hg as ->.
    rewrite Object_assign_get_absent.
    + now apply obj_set_get_same.
    + unfold obj_has. destruct (obj_get m k) eqn:G; [|reflexivity].
      apply obj_get_In in G. exfalso. apply Hn.
      change k with (fst (k, a)). now apply in_map.
  - now apply IH.
Qed.

Lemma Object_assign_no_proto {A} (m acc : obj A) :
  obj_get acc proto_key = None -> obj_get (Object_assign acc m) proto_key = None.
Proof.
  unfold Object_assign, Object_entries. revert acc.
  induction m as [|[k v] m IH]; intros acc H; simpl; [exact H|].
  apply IH. now apply obj_set_no_proto.
Qed.

Lemma merge_from_get_absent (l : list (option (obj jsstring)))
      (acc : obj jsstring) (k : jsstring) :
  forallb (lacks k) l = true -> obj_get (merge_from acc l) k = obj_get acc k.
Proof.
  unfold merge_from. revert acc.
  induction l as [|[m|] l IH]; intros acc H; simpl in *; [reflexivity| |].
  - apply andb_true_iff in H as [H1 H2]. apply negb_true_iff in H1.
    rewrite (IH _ H2). now apply Object_assign_get_absent.
  - now apply IH.
Qed.

Lemma merge_from_no_proto (l : list (option (obj jsstring))) (acc : obj jsstring) :
  obj_get acc proto_key = None -> obj_get (merge_from acc l) proto_key = None.
Proof.
  unfold merge_from. revert acc.
  induction l as [|[m|] l IH]; intros acc H; simpl; auto.
  apply IH. now apply Object_assign_no_proto.
Qed.

(** C9, as stated, fails on the key [__proto__]: [Object.assign] stores by
    assignment, and an assignment of a string to [__proto__] stores
    nothing; the key of the later mapping is therefore not in the merged
    mapping, and the result is empty. *)
Lemma merge_proto_counterexample :
  obj_get (merged_of [Some [(js "__proto__", js "1")];
                      Some [(js "__proto__", js "2")]]) (js "__proto__")
  <> Some (js "2")
  /\ mergeMetadata [Some [(js "__proto__", js "1")];
                    Some [(js "__proto__", js "2")]] = Normal [].
Proof. split; [vm_compute; discriminate | vm_compute; reflexivity]. Qed.

(** C9 (amended).  [mergeMetadata] passes through [createMetadata] the
    mapping it combines from its arguments in their order, in which a key
    other than [__proto__] has the value of the last argument that has the
    key, [__proto__] is never a key, and an argument [undefined] changes
    nothing; in particular [mergeMetadata({a: "1"}, {a: "2", b: "3"})] is
    [{a: "2", b: "3"}]. *)
Theorem mergeMetadata_later_overrides :
  (forall ms, mergeMetadata ms = createMetadata (strings (merged_of ms)))
  /\ (forall ms1 m ms2 k v,
         distinctb (Object_keys m) = true ->
         obj_get m k = Some v ->
         jsstring_eqb k proto_key = false ->
         forallb (lacks k) ms2 = true ->
         obj_get (merged_of (ms1 ++ Some m :: ms2)) k = Some v)
  /\ (forall ms, obj_get (merged_of ms) proto_key = None)
  /\ (forall ms1 ms2, merged_of (ms1 ++ None :: ms2) = merged_of (ms1 ++ ms2))
  /\ mergeMetadata [Some [(js "a", js "1")];
                    Some [(js "a", js "2"); (js "b", js "3")]]
     = Normal [(js "a", js "2"); (js "b", js "3")].
Proof.
  split; [|split; [|split; [|split]]].
  - reflexivity.
  - intros ms1 m ms2 k v Hd Hg Hk Hl.
    unfold merged_of, merge_from. rewrite fold_left_app. cbn [fold_left].
    fold (merge_from [] ms1).
    fold (merge_from (Object_assign (merge_from [] ms1) m) ms2).
    rewrite (merge_from_get_absent ms2 _ k Hl).
    apply Object_assign_get_present; auto.
    + now apply distinctb_NoDup.
    + now apply jsstring_eqb_neq.
  - intros ms. apply (merge_from_no_proto ms []). reflexivity.
  - intros ms1 ms2. unfold merged_of, merge_from. now rewrite !fold_left_app.
  - vm_compute. reflexivity.
Qed.

Lemma mergeMetadata_later_overrides_witness :
  obj_get (merged_of [Some [(js "tenantId", js "t1"); (js "source", js "api")];
                      None;
                      Some [(js "source", js "retry"); (js "userId", js "u1")];
                      Some [(js "points", js "500")]])
          (js "source")
  = Some (js "retry").
Proof.
  apply (proj1 (proj2 mergeMetadata_later_overrides)
           [Some [(js "tenantId", js "t1"); (js "source", js "api")]; None]
           [(js "source", js "retry"); (js "userId", js "u1")]
           [Some [(js "points", js "500")]]);
    vm_compute; reflexivity.
Defined.

(* ================================================================== *)
(** * Further properties *)

(** ** The extractors of utils/metadata.ts *)

Lemma member_not_nullish (v : value) (k : jsstring) :
  is_nullish v = false -> member v k = Normal (read_field v k).
Proof. unfold member. now intros ->. Qed.

Lemma truthy_not_nullish (v : value) : ToBoolean v = true -> is_nullish v = false.
Proof. destruct v; simpl; congruence. Qed.

Lemma extract_field_result (primary alternate : jsstring) (metadata : value) :
  exists v,
    extract_field primary alternate metadata = Normal v
    /\ (v = VNull \/ ToBoolean v = true).
Proof.
  unfold extract_field.
  destruct (ToBoolean metadata) eqn:T; simpl; [|eauto].
  rewrite !(member_not_nullish _ _ (truthy_not_nullish _ T)). simpl.
  destruct (ToBoolean (read_field metadata primary)) eqn:A; [eauto|].
  destruct (ToBoolean (read_field metadata alternate)) eqn:B; eauto.
Qed.

(** X1.  [extractTenantId] and [extractUserId] never throw, whatever they
    are given ([undefined], [null], a primitive, an object), and what they
    return is [null] or a truthy value: an empty string, [0] or [undefined]
    found under the key is never handed back. *)
Theorem extractors_return_null_or_truthy (metadata : value) :
  (exists v, extractTenantId metadata = Normal v
             /\ (v = VNull \/ ToBoolean v = true))
  /\ (exists v, extractUserId metadata = Normal v
                /\ (v = VNull \/ ToBoolean v = true)).
Proof. split; apply extract_field_result. Qed.

(** The spelling in snake case is used exactly when the first spelling
    gives nothing truthy. *)
Lemma extract_field_object (primary alternate : jsstring) (props : obj value) :
  extract_field primary alternate (VObject props)
  = Normal (if ToBoolean (Get props primary) then Get props primary
            else if ToBoolean (Get props alternate) then Get props alternate
                 else VNull).
Proof.
  unfold extract_field. simpl.
  destruct (ToBoolean (Get props primary)); [reflexivity|].
  destruct (ToBoolean (Get props alternate)); reflexivity.
Qed.

(** ** The extractors after the sanitizer *)

Lemma Object_assign_app {A} (acc l1 l2 : obj A) :
  Object_assign acc (l1 ++ l2) = Object_assign (Object_assign acc l1) l2.
Proof. unfold Object_assign, Object_entries. apply fold_left_app. Qed.

Lemma obj_has_false {A} (o : obj A) (k : jsstring) :
  obj_has o k = false <-> ~ In k (map fst o).
Proof.
  unfold obj_has. rewrite <- obj_get_None.
  destruct (obj_get o k); split; congruence.
Qed.

(** The value that a sequence of assignments leaves under a key bound once. *)
Lemma Object_assign_get_once {A} (acc l1 l2 : obj A) (k : jsstring) (v : A) :
  k <> proto_key -> ~ In k (map fst l2) ->
  obj_get (Object_assign acc (l1 ++ (k, v) :: l2)) k = Some v.
Proof.
  intros Hk H2. rewrite Object_assign_app.
  change ((k, v) :: l2) with ([(k, v)] ++ l2). rewrite Object_assign_app.
  rewrite Object_assign_get_absent by now apply obj_has_false.
  unfold Object_assign at 1, Object_entries. simpl.
  now apply obj_set_get_same.
Qed.

Lemma Object_assign_get_never {A} (acc l : obj A) (k : jsstring) :
  ~ In k (map fst l) -> obj_get (Object_assign acc l) k = obj_get acc k.
Proof. intros H. apply Object_assign_get_absent. now apply obj_has_false. Qed.

(** A short key is the cut of itself only. *)
Lemma cut_key_short (n : nat) (k K : jsstring) :
  List.length K < n -> cut n k = K -> k = K.
Proof.
  unfold cut, substring0. intros HK.
  destruct (n <? List.length k) eqn:E; [|auto].
  apply Nat.ltb_lt in E. intros H.
  assert (L : List.length (firstn n k) = n) by (apply firstn_length_le; lia).
  rewrite H in L. lia.
Qed.

Lemma cut_nil (n : nat) (s : jsstring) : 0 < n -> (cut n s = [] <-> s = []).
Proof.
  intros Hn. unfold cut, substring0. destruct (n <? List.length s); [|tauto].
  destruct n; [lia|]. destruct s; simpl; split; congruence.
Qed.

(** Looking up a short key in the truncated entries of an object with
    distinct keys. *)
Lemma truncated_get (f : obj jsstring) (K : jsstring) :
  NoDup (map fst f) -> K <> proto_key -> List.length K < 40 ->
  obj_get (Object_assign [] (map truncated f)) K
  = option_map (cut 500) (obj_get f K).
Proof.
  intros Hd Hp HK.
  assert (Hcut : cut 40 K = K) by (apply cut_short; lia).
  assert (Hkeys : forall l, ~ In K (map fst l) ->
                            ~ In K (map fst (map truncated l))).
  { intros l Hn Hin. apply in_map_iff in Hin as [[k' v'] [E Hin]].
    apply in_map_iff in Hin as [[k v] [E' Hin]].
    unfold truncated in E'. simpl in E'. injection E' as <- <-. simpl in E.
    apply cut_key_short in E; [|exact HK]. subst k. apply Hn.
    change K with (fst (K, v)). now apply in_map. }
  destruct (obj_get f K) as [v|] eqn:G; simpl.
  - apply obj_get_In in G. apply in_split in G as [l1 [l2 ->]].
    rewrite map_app in Hd. simpl in Hd. apply NoDup_remove_2 in Hd.
    rewrite map_app. simpl map. unfold truncated at 2. simpl. rewrite Hcut.
    apply Object_assign_get_once; [exact Hp|].
    apply Hkeys. intros Hin. apply Hd. apply in_or_app. now right.
  - apply obj_get_None in G. rewrite Object_assign_get_never; [reflexivity|].
    now apply Hkeys.
Qed.

Lemma Object_assign_get_distinct {A} (m : obj A) (k : jsstring) :
  NoDup (map fst m) -> k <> proto_key ->
  obj_get (Object_assign [] m) k = obj_get m k.
Proof.
  intros Hd Hk. destruct (obj_get m k) as [v|] eqn:G.
  - now apply Object_assign_get_present.
  - apply obj_get_None in G. now rewrite Object_assign_get_never.
Qed.

Lemma Get_strings (m : obj jsstring) (k : jsstring) :
  Get (strings m) k
  = match obj_get m k with Some s => VString s | None => VUndefined end.
Proof.
  unfold Get, strings. induction m as [|[k0 s0] m IH]; simpl; [reflexivity|].
  destruct (jsstring_eqb k0 k); [reflexivity | exact IH].
Qed.

Lemma ToBoolean_cut (s : jsstring) :
  ToBoolean (VString (cut 500 s)) = ToBoolean (VString s).
Proof.
  destruct s as [|c s]; [reflexivity|].
  destruct (cut 500 (c :: s)) eqn:E; [|reflexivity].
  apply cut_nil in E; [discriminate | lia].
Qed.

Lemma extract_field_sanitized (primary alternate : jsstring)
      (m out : obj jsstring) :
  primary <> proto_key -> alternate <> proto_key ->
  List.length primary < 40 -> List.length alternate < 40 ->
  distinctb (Object_keys m) = true ->
  List.length m <= 50 ->
  createMetadata (strings m) = Normal out ->
  extract_field primary alternate (VObject (strings out))
  = cut_result (extract_field primary alternate (VObject (strings m))).
Proof.
  intros Hp Ha Lp La Hd Hlen Hc.
  apply distinctb_NoDup in Hd.
  rewrite (createMetadata_unfold (strings m) (spec_filter_coerce_strings m)) in Hc.
  pose proof (Object_assign_length m []) as HL. simpl in HL.
  assert (E : (50 <? List.length (Object_assign [] m)) = false)
    by (apply Nat.ltb_ge; lia).
  rewrite E in Hc. injection Hc as <-.
  assert (Hf : NoDup (map fst (Object_assign [] m))).
  { apply (Object_assign_own_order m []), own_key_order_nil. }
  assert (G : forall K, K <> proto_key -> List.length K < 40 ->
              Get (strings (Object_assign [] (map truncated (Object_assign [] m)))) K
              = match obj_get m K with
                | Some s => VString (cut 500 s)
                | None => VUndefined
                end).
  { intros K HK LK. rewrite Get_strings, truncated_get by assumption.
    rewrite Object_assign_get_distinct by assumption.
    destruct (obj_get m K); reflexivity. }
  rewrite !extract_field_object, (G primary), (G alternate) by assumption.
  rewrite !Get_strings.
  destruct (obj_get m primary) as [s|]; cbv beta iota.
  - rewrite ToBoolean_cut.
    destruct (ToBoolean (VString s)) eqn:T; [reflexivity|].
    destruct (obj_get m alternate) as [t|]; cbv beta iota; [|reflexivity].
    rewrite ToBoolean_cut. destruct (ToBoolean (VString t)); reflexivity.
  - destruct (obj_get m alternate) as [t|]; [|reflexivity].
    change (ToBoolean VUndefined) with false. cbv beta iota.
    rewrite ToBoolean_cut. destruct (ToBoolean (VString t)); reflexivity.
Qed.

(** X2.  Sanitizing keeps the tenant and the user: for a mapping of at most
    50 entries with string values, [extractTenantId] and [extractUserId]
    find in [createMetadata(m)] what they find in [m], cut to 500
    characters. *)
Theorem extractors_after_createMetadata (m out : obj jsstring) :
  distinctb (Object_keys m) = true ->
  List.length m <= 50 ->
  createMetadata (strings m) = Normal out ->
  extractTenantId (VObject (strings out))
  = cut_result (extractTenantId (VObject (strings m)))
  /\ extractUserId (VObject (strings out))
     = cut_result (extractUserId (VObject (strings m))).
Proof.
  intros Hd Hl Hc. split; apply extract_field_sanitized; auto;
    try (intros H; apply jsstring_eqb_eq in H; vm_compute in H; discriminate H);
    vm_compute; lia.
Qed.

Lemma extractors_after_createMetadata_witness :
  extractTenantId
    (VObject (strings [(js "tenant_id", js "t1"); (js "tenantId", js "");
                       (js "user_id", js "u9")]))
  = Normal (VString (js "t1")).
Proof.
  pose proof (@extractors_after_createMetadata
                [(js "tenant_id", js "t1"); (js "tenantId", js "");
                 (js "user_id", js "u9")]
                [(js "tenant_id", js "t1"); (js "tenantId", js "");
                 (js "user_id", js "u9")]) as H.
  destruct H as [H _]; [vm_compute; reflexivity | vm_compute; lia
                       | vm_compute; reflexivity |].
  rewrite H. vm_compute. reflexivity.
Defined.

(** ** The error helpers of utils/idempotency.ts *)

Lemma optional_member_truthy (v : value) (k : jsstring) :
  ToBoolean (optional_member v k) = true ->
  member v k = Normal (optional_member v k).
Proof.
  unfold optional_member, member. destruct (is_nullish v); [discriminate|reflexivity].
Qed.

Lemma optional_member_not_nullish (v : value) (k : jsstring) :
  is_nullish (optional_member v k) = false ->
  member v k = Normal (optional_member v k).
Proof.
  unfold optional_member, member. destruct (is_nullish v); [discriminate|reflexivity].
Qed.

(** X3.  [extractIdempotencyKeyFromError] never throws, whatever the error
    value is ([undefined], [null], a primitive, an object without headers):
    it returns the header found under [error.headers] when that is truthy,
    else the one under [error.raw.headers] when that is truthy, else [null];
    so the result is [null] or a truthy value. *)
Theorem extractIdempotencyKeyFromError_lookup (error : value) :
  let top :=
    optional_member (optional_member error (js "headers")) idempotency_header in
  let raw :=
    optional_member
      (optional_member (optional_member error (js "raw")) (js "headers"))
      idempotency_header in
  extractIdempotencyKeyFromError error
  = Normal (if ToBoolean top then top else if ToBoolean raw then raw else VNull)
  /\ exists v, extractIdempotencyKeyFromError error = Normal v
               /\ (v = VNull \/ ToBoolean v = true).
Proof.
  intros top raw.
  assert (E : extractIdempotencyKeyFromError error
              = Normal (if ToBoolean top then top
                        else if ToBoolean raw then raw else VNull)).
  { unfold extractIdempotencyKeyFromError. fold top. fold raw.
    destruct (ToBoolean top) eqn:T.
    - pose proof (truthy_not_nullish _ T) as N1.
      assert (N2 : is_nullish (optional_member error (js "headers")) = false).
      { unfold top, optional_member in T |- *.
        destruct (is_nullish error); [discriminate T|].
        destruct (is_nullish (read_field error (js "headers"))); [discriminate T|].
        reflexivity. }
      rewrite (optional_member_not_nullish _ _ N2). cbn [bind].
      now apply optional_member_truthy.
    - destruct (ToBoolean raw) eqn:R; [|reflexivity].
      assert (N3 : is_nullish (optional_member
                                 (optional_member error (js "raw")) (js "headers"))
                   = false).
      { unfold raw, optional_member in R |- *.
        destruct (is_nullish error); [discriminate R|].
        destruct (is_nullish (read_field error (js "raw"))); [discriminate R|].
        destruct (is_nullish (read_field (read_field error (js "raw")) (js "headers")));
          [discriminate R | reflexivity]. }
      assert (N4 : is_nullish (optional_member error (js "raw")) = false).
      { unfold optional_member in N3 |- *.
        destruct (is_nullish error); [discriminate N3|].
        destruct (is_nullish (read_field error (js "raw"))); [discriminate N3|].
        reflexivity. }
      rewrite (optional_member_not_nullish _ _ N4). cbn [bind].
      rewrite (optional_member_not_nullish _ _ N3). cbn [bind].
      now apply optional_member_truthy. }
  split; [exact E|]. rewrite E. eexists. split; [reflexivity|].
  destruct (ToBoolean top) eqn:T; [now right|].
  destruct (ToBoolean raw) eqn:R; [now right | now left].
Qed.

(** X4.  [isIdempotencyError] never throws, and it answers [true] exactly
    when the error has the type [idempotency_error], or has some truthy
    type together with the code [idempotency_key_in_use]; an error without
    a truthy type is never recognized, whatever its code. *)
Theorem isIdempotencyError_classification (error : value) :
  let type := optional_member error (js "type") in
  let code := optional_member error (js "code") in
  isIdempotencyError error
  = Normal (strict_equals_string type (js "idempotency_error")
            || (ToBoolean type
                && strict_equals_string code (js "idempotency_key_in_use")))
  /\ (ToBoolean type = false -> isIdempotencyError error = Normal false).
Proof.
  intros type code. unfold isIdempotencyError. fold type.
  destruct (ToBoolean type) eqn:T; cbn [negb].
  - split; [|discriminate].
    rewrite (optional_member_truthy _ _ T). cbn [bind]. fold type.
    destruct (strict_equals_string type (js "idempotency_error")); [reflexivity|].
    assert (N : is_nullish error = false).
    { unfold type, optional_member in T. destruct (is_nullish error);
        [discriminate T | reflexivity]. }
    rewrite (member_not_nullish _ _ N). cbn [bind orb andb].
    unfold code, optional_member. now rewrite N.
  - split; [|reflexivity].
    rewrite andb_false_l, orb_false_r.
    destruct type; try reflexivity; try discriminate T.
    destruct s; [reflexivity | discriminate T].
Qed.

Lemma isIdempotencyError_classification_witness :
  isIdempotencyError
    (VObject [(js "code", VString (js "idempotency_key_in_use"));
              (js "message", VString (js "Keys for idempotent requests ..."))])
  = Normal false.
Proof.
  apply (proj2 (isIdempotencyError_classification
                  (VObject [(js "code", VString (js "idempotency_key_in_use"));
                            (js "message", VString (js "Keys for idempotent requests ..."))]))).
  vm_compute. reflexivity.
Defined.

(** ** More on the idempotency key *)

Lemma app_same_length {A} (a b c d : list A) :
  List.length a = List.length b -> a ++ c = b ++ d -> a = b.
Proof.
  revert b. induction a as [|x a IH]; intros [|y b] Hl H; simpl in *;
    try discriminate; [reflexivity|].
  injection H as -> H. f_equal. apply IH; [lia | exact H].
Qed.

(** X5.  The key tells the operation: keys generated for two different
    operations are different, whatever the parameters are; so a credit and
    a debit with the same parameters never share a key. *)
Theorem generateIdempotencyKey_separates_operations
  (o1 o2 : jsstring) (p1 p2 : value) :
  o1 <> o2 ->
  generateIdempotencyKey o1 p1 <> generateIdempotencyKey o2 p2.
Proof.
  intros Hne E. apply Hne.
  assert (L : List.length o1 = List.length o2).
  { apply (f_equal (@List.length _)) in E.
    rewrite !generateIdempotencyKey_length in E. lia. }
  unfold generateIdempotencyKey in E. cbv zeta in E.
  eapply app_same_length; eassumption.
Qed.

Lemma generateIdempotencyKey_separates_operations_witness :
  generateIdempotencyKey (js "balance-credit")
    (VObject [(js "customerId", VString (js "cus_1"));
              (js "amount", VNumber (Num_int 1000))])
  <> generateIdempotencyKey (js "balance-debit")
    (VObject [(js "customerId", VString (js "cus_1"));
              (js "amount", VNumber (Num_int 1000))]).
Proof.
  apply generateIdempotencyKey_separates_operations.
  intros H. apply jsstring_eqb_eq in H. vm_compute in H. discriminate H.
Defined.

(** *** [sortObjectKeys] as a normal form *)

Lemma canonical_entries_keys (props : obj value) :
  NoDup (map fst props) ->
  NoDup (map fst (sort_by (entry_leb canon_leb)
                    (filter not_proto
                       (map (fun e => (fst e, own_key_canonical (snd e))) props)))).
Proof.
  intros Hd.
  eapply Permutation_NoDup;
    [apply Permutation_map; symmetry; apply sort_by_perm|].
  set (l := map (fun e => (fst e, own_key_canonical (snd e))) props).
  assert (Hl : NoDup (map fst l)) by (unfold l; now rewrite keys_map_values).
  clearbody l. induction l as [|e l IH]; simpl; [constructor|].
  inversion Hl as [|? ? Hn Hd']; subst.
  destruct (not_proto e); simpl; [|now apply IH].
  constructor; [|now apply IH].
  intros Hin. apply Hn. apply in_map_iff in Hin as [x [Hx Hin]].
  apply filter_In in Hin as [Hin _]. rewrite <- Hx. now apply in_map.
Qed.

Lemma canonical_entries_In (props : obj value) (e : jsstring * value) :
  In e (sort_by (entry_leb canon_leb)
          (filter not_proto
             (map (fun e => (fst e, own_key_canonical (snd e))) props))) ->
  not_proto e = true
  /\ exists e0, In e0 props /\ e = (fst e0, own_key_canonical (snd e0)).
Proof.
  intros H. eapply Permutation_in in H; [|apply sort_by_perm].
  apply filter_In in H as [H Hp]. split; [exact Hp|].
  apply in_map_iff in H as [e0 [<- H0]]. eauto.
Qed.

Lemma own_key_canonical_well_formed (v : value) :
  well_formed v = true -> well_formed (own_key_canonical v) = true.
Proof.
  induction v as [ | | | | | elems IH | props IH ] using value_ind;
    intros Hwf; try reflexivity.
  - simpl in *. rewrite forallb_forall in *. rewrite Forall_forall in IH.
    intros x Hx. apply in_map_iff in Hx as [e [<- He]]. auto.
  - simpl in Hwf. apply andb_true_iff in Hwf as [Hd Hwf].
    apply distinctb_NoDup in Hd. rewrite forallb_forall in Hwf.
    rewrite Forall_forall in IH.
    cbn [own_key_canonical well_formed]. apply andb_true_iff. split.
    + apply distinctb_NoDup. now apply canonical_entries_keys.
    + apply forallb_forall. intros e He.
      apply canonical_entries_In in He as [_ [e0 [H0 ->]]]. simpl. auto.
Qed.

Lemma sort_by_sorted_id {A} (leb : A -> A -> bool) (l : list A) :
  (forall a b, leb a b = true \/ leb b a = true) ->
  (forall a b c, leb a b = true -> leb b c = true -> leb a c = true) ->
  (forall a b, In a l -> In b l -> leb a b = true -> leb b a = true -> a = b) ->
  StronglySorted (fun x y => leb x y = true) l ->
  sort_by leb l = l.
Proof.
  intros Htot Htrans Hanti Hs.
  apply sorted_perm_unique with (R := fun x y => leb x y = true); auto.
  - now apply sort_by_sorted.
  - apply sort_by_perm.
  - intros a b Ha Hb. apply Hanti; eapply Permutation_in; try eassumption;
      apply sort_by_perm.
Qed.

Lemma own_key_canonical_idempotent (v : value) :
  well_formed v = true ->
  own_key_canonical (own_key_canonical v) = own_key_canonical v.
Proof.
  induction v as [ | | | | | elems IH | props IH ] using value_ind;
    intros Hwf; try reflexivity.
  - simpl. f_equal. rewrite map_map. apply map_ext_in. intros e He.
    rewrite Forall_forall in IH. apply IH; [exact He|].
    simpl in Hwf. rewrite forallb_forall in Hwf. auto.
  - simpl in Hwf. apply andb_true_iff in Hwf as [Hd Hwf].
    apply distinctb_NoDup in Hd. rewrite forallb_forall in Hwf.
    rewrite Forall_forall in IH.
    cbn [own_key_canonical]. f_equal.
    set (L := sort_by (entry_leb canon_leb)
                (filter not_proto
                   (map (fun e => (fst e, own_key_canonical (snd e))) props))).
    assert (HL : forall e, In e L ->
                 not_proto e = true
                 /\ exists e0, In e0 props /\ e = (fst e0, own_key_canonical (snd e0)))
      by (intros e; apply canonical_entries_In).
    assert (E1 : map (fun e => (fst e, own_key_canonical (snd e))) L = L).
    { rewrite <- (map_id L) at 2. apply map_ext_in. intros e He.
      apply HL in He as [_ [e0 [H0 ->]]]. simpl. f_equal. auto. }
    rewrite E1.
    rewrite forallb_filter_id
      by (apply forallb_forall; intros e He; now apply HL in He).
    apply sort_by_sorted_id.
    + apply entry_canon_total.
    + apply entry_canon_trans.
    + intros a b Ha Hb Hab Hba.
      apply (distinct_keys_entry_eq L); auto.
      * now apply canonical_entries_keys.
      * now apply canon_leb_antisym.
    + apply sort_by_sorted; [apply entry_canon_total | apply entry_canon_trans].
Qed.

(** X6.  [sortObjectKeys] is a normal form: sorting a sorted value changes
    nothing. *)
Theorem sortObjectKeys_idempotent (v : value) :
  well_formed v = true ->
  sortObjectKeys (sortObjectKeys v) = sortObjectKeys v.
Proof.
  intros Hwf. rewrite (sortObjectKeys_canonical v Hwf).
  rewrite sortObjectKeys_canonical by now apply own_key_canonical_well_formed.
  now apply own_key_canonical_idempotent.
Qed.

Lemma sortObjectKeys_idempotent_witness :
  sortObjectKeys
    (sortObjectKeys
       (VObject [(js "b", VNull); (js "10", VArray [VObject [(js "z", VNull); (js "a", VNull)]]);
                 (js "9", VBool true)]))
  = sortObjectKeys
      (VObject [(js "b", VNull); (js "10", VArray [VObject [(js "z", VNull); (js "a", VNull)]]);
                (js "9", VBool true)]).
Proof. apply sortObjectKeys_idempotent. vm_compute. reflexivity. Defined.

Lemma obj_get_permutation {A} (l l' : obj A) (k : jsstring) :
  NoDup (map fst l) -> Permutation l l' -> obj_get l k = obj_get l' k.
Proof.
  intros Hd P.
  assert (Hd' : NoDup (map fst l'))
    by (eapply Permutation_NoDup; [apply Permutation_map; exact P | exact Hd]).
  destruct (obj_get l k) as [v|] eqn:G.
  - symmetry. apply obj_get_distinct; [exact Hd'|].
    eapply Permutation_in; [exact P|]. now apply obj_get_In.
  - symmetry. apply obj_get_None. apply obj_get_None in G. intros Hin. apply G.
    eapply Permutation_in; [apply Permutation_map; symmetry; exact P | exact Hin].
Qed.

Lemma obj_get_not_proto {A} (l : obj A) (k : jsstring) :
  obj_get (filter not_proto l) k
  = if jsstring_eqb k proto_key then None else obj_get l k.
Proof.
  induction l as [|[k0 v0] l IH]; simpl.
  - now destruct (jsstring_eqb k proto_key).
  - unfold not_proto at 1. simpl.
    destruct (jsstring_eqb k0 proto_key) eqn:E0; simpl.
    + rewrite IH. destruct (jsstring_eqb k proto_key) eqn:E; [reflexivity|].
      destruct (jsstring_eqb k0 k) eqn:E1; [|reflexivity].
      apply jsstring_eqb_eq in E1. subst. congruence.
    + rewrite IH. destruct (jsstring_eqb k0 k) eqn:E1; [|reflexivity].
      apply jsstring_eqb_eq in E1. subst. now rewrite E0.
Qed.

Lemma obj_get_map_values {A B} (f : A -> B) (l : obj A) (k : jsstring) :
  obj_get (map (fun e => (fst e, f (snd e))) l) k = option_map f (obj_get l k).
Proof.
  induction l as [|[k0 v0] l IH]; simpl; [reflexivity|].
  destruct (jsstring_eqb k0 k); [reflexivity | exact IH].
Qed.

(** X7.  [sortObjectKeys] loses no own property and moves none to another
    key: the sorted object has an own property under a key exactly when the
    key is not [__proto__] and the object has an own property there, and it
    holds the sorted value of what the object holds; the sorted object has
    no own property [__proto__]. *)
Theorem sortObjectKeys_keeps_properties (props : obj value) (k : jsstring) :
  well_formed (VObject props) = true ->
  exists sorted,
    sortObjectKeys (VObject props) = VObject sorted
    /\ obj_get sorted k
       = if jsstring_eqb k proto_key then None
         else option_map sortObjectKeys (obj_get props k).
Proof.
  intros Hwf. rewrite (sortObjectKeys_canonical _ Hwf).
  simpl in Hwf. apply andb_true_iff in Hwf as [Hd Hw].
  apply distinctb_NoDup in Hd. rewrite forallb_forall in Hw.
  cbn [own_key_canonical]. eexists. split; [reflexivity|].
  set (l := filter not_proto
              (map (fun e => (fst e, own_key_canonical (snd e))) props)).
  assert (Hl : NoDup (map fst (sort_by (entry_leb canon_leb) l)))
    by (now apply canonical_entries_keys).
  rewrite (obj_get_permutation k Hl (sort_by_perm (entry_leb canon_leb) l)).
  unfold l. rewrite obj_get_not_proto, obj_get_map_values.
  destruct (jsstring_eqb k proto_key); [reflexivity|].
  destruct (obj_get props k) as [v|] eqn:G; [|reflexivity].
  simpl. f_equal. symmetry. apply sortObjectKeys_canonical.
  apply obj_get_In in G. apply (Hw (k, v) G).
Qed.

Lemma sortObjectKeys_keeps_properties_witness :
  exists sorted,
    sortObjectKeys
      (VObject [(js "metadata", VObject [(js "b", VNull); (js "a", VNull)]);
                (js "__proto__", VObject [(js "x", VNull)]);
                (js "amount", VNumber (Num_int 5))])
    = VObject sorted
    /\ obj_get sorted (js "metadata")
       = Some (VObject [(js "a", VNull); (js "b", VNull)]).
Proof.
  destruct (@sortObjectKeys_keeps_properties
              [(js "metadata", VObject [(js "b", VNull); (js "a", VNull)]);
               (js "__proto__", VObject [(js "x", VNull)]);
               (js "amount", VNumber (Num_int 5))]
              (js "metadata") eq_refl) as [sorted [E G]].
  exists sorted. split; [exact E | exact G].
Defined.

(** *** Values with the same JSON text *)

Lemma same_member_insert (leb : jsstring -> jsstring -> bool)
      (e e' : jsstring * value) (l l' : obj value) :
  same_member e e' -> Forall2 same_member l l' ->
  Forall2 same_member (insert_by (entry_leb leb) e l)
                      (insert_by (entry_leb leb) e' l').
Proof.
  intros He H. induction H as [|x x' l l' Hx H IH]; simpl.
  - constructor; [exact He | constructor].
  - assert (E : entry_leb leb e x = entry_leb leb e' x')
      by (unfold entry_leb; now rewrite (proj1 He), (proj1 Hx)).
    rewrite E. destruct (entry_leb leb e' x').
    + constructor; [exact He|]. constructor; assumption.
    + constructor; assumption.
Qed.

Lemma same_member_sort (leb : jsstring -> jsstring -> bool) (l l' : obj value) :
  Forall2 same_member l l' ->
  Forall2 same_member (sort_by (entry_leb leb) l) (sort_by (entry_leb leb) l').
Proof.
  induction 1 as [|x x' l l' Hx H IH]; simpl; [constructor|].
  now apply same_member_insert.
Qed.

Lemma same_member_filter (l l' : obj value) :
  Forall2 same_member l l' ->
  Forall2 same_member (filter not_proto l) (filter not_proto l').
Proof.
  induction 1 as [|x x' l l' Hx H IH]; simpl; [constructor|].
  assert (E : not_proto x = not_proto x')
    by (unfold not_proto; now rewrite (proj1 Hx)).
  rewrite E. destruct (not_proto x'); [constructor; assumption | assumption].
Qed.

Lemma same_member_JSON (l l' : obj value) :
  Forall2 same_member l l' -> JSON_members l = JSON_members l'.
Proof.
  induction 1 as [|[k v] [k' v'] l l' [Hk Hv] H IH]; [reflexivity|].
  simpl in *. subst k'. rewrite Hv, IH. reflexivity.
Qed.

Lemma same_member_refl (l : obj value) : Forall2 same_member l l.
Proof. induction l; constructor; [split; reflexivity | assumption]. Qed.

Lemma well_formed_entry (m1 m2 : obj value) (k : jsstring) (v : value) :
  well_formed (VObject (m1 ++ (k, v) :: m2)) = true -> well_formed v = true.
Proof.
  simpl. intros H. apply andb_true_iff in H as [_ H].
  rewrite forallb_app in H. apply andb_true_iff in H as [_ H].
  simpl in H. now apply andb_true_iff in H as [H _].
Qed.

(** X8.  The key depends on the value of a property only through the JSON
    text of its sorted form: two values with the same text under the same
    property give the same key.  This is how [NaN] and [Infinity] become
    indistinguishable from [null]. *)
Theorem generateIdempotencyKey_same_json
  (o : jsstring) (m1 m2 : obj value) (k : jsstring) (v w : value) :
  well_formed (VObject (m1 ++ (k, v) :: m2)) = true ->
  well_formed (VObject (m1 ++ (k, w) :: m2)) = true ->
  JSON_stringify (sortObjectKeys v) = JSON_stringify (sortObjectKeys w) ->
  generateIdempotencyKey o (VObject (m1 ++ (k, v) :: m2))
  = generateIdempotencyKey o (VObject (m1 ++ (k, w) :: m2)).
Proof.
  intros Hv Hw E.
  unfold JSON_stringify in E.
  rewrite (sortObjectKeys_canonical v (well_formed_entry _ _ _ _ Hv)) in E.
  rewrite (sortObjectKeys_canonical w (well_formed_entry _ _ _ _ Hw)) in E.
  unfold generateIdempotencyKey, JSON_stringify. cbv zeta.
  rewrite (sortObjectKeys_canonical _ Hv), (sortObjectKeys_canonical _ Hw).
  cbn [own_key_canonical]. rewrite !JSON_serialize_object.
  erewrite same_member_JSON; [reflexivity|].
  apply same_member_sort, same_member_filter.
  rewrite !map_app. apply Forall2_app; [apply same_member_refl|].
  simpl. constructor; [split; [reflexivity | exact E] | apply same_member_refl].
Qed.

Lemma generateIdempotencyKey_same_json_witness :
  generateIdempotencyKey (js "balance-credit")
    (VObject [(js "customerId", VString (js "cus_1"));
              (js "amount", VNumber Num_NaN)])
  = generateIdempotencyKey (js "balance-credit")
    (VObject [(js "customerId", VString (js "cus_1"));
              (js "amount", VNull)]).
Proof.
  apply (@generateIdempotencyKey_same_json (js "balance-credit")
           [(js "customerId", VString (js "cus_1"))] [] (js "amount")
           (VNumber Num_NaN) VNull); vm_compute; reflexivity.
Defined.

(** ** More on the sanitizer *)

Lemma spec_filter_coerce_length (m : obj value) (r : obj jsstring) :
  spec_filter_coerce m = Normal r -> List.length r <= List.length m.
Proof.
  revert r. induction m as [|[k v] m IH]; simpl; intros r H.
  - injection H as <-. simpl. lia.
  - destruct (is_nullish v).
    + specialize (IH r H). lia.
    + destruct (ToString v); [|discriminate].
      destruct (spec_filter_coerce m) as [r0|]; [|discriminate].
      simpl in H. injection H as <-. specialize (IH r0 eq_refl). simpl. lia.
Qed.

Lemma Object_fromEntries_own_order {A} (l : obj A) :
  ~ In proto_key (map fst l) -> own_key_order (map fst (Object_fromEntries l)).
Proof.
  unfold Object_fromEntries.
  assert (G : forall acc, own_key_order (map fst acc) ->
                ~ In proto_key (map fst l) ->
                own_key_order
                  (map fst (fold_left (fun o e => obj_define o (fst e) (snd e)) l acc))).
  { induction l as [|[k v] l IH]; intros acc Ha Hp; simpl; [exact Ha|].
    apply IH.
    - apply obj_define_own_order; [|exact Ha]. intros ->. apply Hp. now left.
    - intros H. apply Hp. now right. }
  apply G, own_key_order_nil.
Qed.

Lemma createMetadata_own_order (m : obj value) (out : obj jsstring) :
  createMetadata m = Normal out -> own_key_order (map fst out).
Proof.
  destruct (spec_filter_coerce m) as [r|e] eqn:Hr.
  2:{ rewrite (createMetadata_throw m Hr). discriminate. }
  rewrite (createMetadata_unfold m Hr).
  pose proof (Object_assign_own_order r [] own_key_order_nil) as Ho.
  remember (firstn 50 (Object_assign [] r)) as first50 eqn:Hf.
  destruct (50 <? List.length (Object_assign [] r)); intros H; injection H as <-.
  - apply Object_fromEntries_own_order. subst first50.
    destruct Ho as [_ [_ Hp]]. intros Hin. apply Hp.
    apply in_map_iff in Hin as [x [Hx Hin]]. rewrite <- Hx.
    apply in_map. eapply In_firstn. exact Hin.
  - apply Object_assign_own_order, own_key_order_nil.
Qed.

(** X9.  Whatever the input, the result of [createMetadata] has at most 50
    entries and never the key [__proto__]. *)
Theorem createMetadata_count_and_keys (m : obj value) (out : obj jsstring) :
  createMetadata m = Normal out ->
  List.length out <= 50 /\ obj_get out proto_key = None.
Proof.
  intros H. split.
  - now apply (createMetadata_at_most_50 m).
  - apply obj_get_None. now apply (createMetadata_own_order m) in H as [_ [_ Hp]].
Qed.

Lemma createMetadata_count_and_keys_witness :
  exists out,
    createMetadata (numbered_entries 60 (VNumber (Num_int 7))) = Normal out
    /\ List.length out <= 50 /\ obj_get out proto_key = None.
Proof.
  eexists. split; [vm_compute; reflexivity|].
  apply (@createMetadata_count_and_keys (numbered_entries 60 (VNumber (Num_int 7)))).
  vm_compute. reflexivity.
Defined.

(** X10.  For an input of at most 50 entries the three limits hold together:
    the result has at most 50 entries, keys of at most 40 and values of at
    most 500 characters. *)
Theorem createMetadata_limits_small_input (m : obj value) (out : obj jsstring) :
  List.length m <= 50 ->
  createMetadata m = Normal out ->
  within_limits out = true.
Proof.
  intros Hlen Hc.
  destruct (spec_filter_coerce m) as [r|e] eqn:Hr.
  2:{ rewrite (createMetadata_throw m Hr) in Hc. discriminate. }
  apply (createMetadata_limits_without_overflow m Hr); [|exact Hc].
  pose proof (spec_filter_coerce_length m Hr).
  pose proof (Object_assign_length r []) as H1. simpl in H1. lia.
Qed.

Lemma createMetadata_limits_small_input_witness :
  within_limits
    [(repeat 107%N 40, repeat 118%N 500); (js "n", js "12")] = true.
Proof.
  apply (@createMetadata_limits_small_input
           [(repeat 107%N 41, VString (repeat 118%N 501));
            (js "n", VNumber (Num_int 12)); (js "gone", VNull)]).
  - vm_compute. lia.
  - vm_compute. reflexivity.
Defined.

(** X11.  A result within the limits is a fixed point: for every input of
    at most 50 entries, with values of any kind and keys and values of any
    length, sanitizing the result again returns it unchanged. *)
Theorem createMetadata_fixed_point (m : obj value) (out : obj jsstring) :
  List.length m <= 50 ->
  createMetadata m = Normal out ->
  createMetadata (strings out) = Normal out.
Proof.
  intros Hlen Hc.
  assert (Hl : within_limits out = true).
  { destruct (spec_filter_coerce m) as [r|e] eqn:Hr.
    2:{ rewrite (createMetadata_throw m Hr) in Hc. discriminate. }
    apply (createMetadata_limits_without_overflow m Hr); [|exact Hc].
    pose proof (spec_filter_coerce_length m Hr).
    pose proof (Object_assign_length r []) as H1. simpl in H1. lia. }
  apply createMetadata_small; [apply spec_filter_coerce_strings | | exact Hl].
  now apply (createMetadata_own_order m).
Qed.

Lemma createMetadata_fixed_point_witness :
  createMetadata
    (strings [(repeat 107%N 40, repeat 118%N 500); (js "n", js "12")])
  = Normal [(repeat 107%N 40, repeat 118%N 500); (js "n", js "12")].
Proof.
  apply (@createMetadata_fixed_point
           [(repeat 107%N 41, VString (repeat 118%N 501));
            (js "n", VNumber (Num_int 12)); (js "gone", VNull)]).
  - vm_compute. lia.
  - vm_compute. reflexivity.
Defined.

(** X12.  Merging a single mapping is sanitizing it. *)
Theorem mergeMetadata_single (m : obj jsstring) :
  mergeMetadata [Some m] = createMetadata (strings m).
Proof.
  unfold mergeMetadata, merged_of, merge_from. cbn [fold_left].
  rewrite (createMetadata_unfold _ (spec_filter_coerce_strings (Object_assign [] m))).
  rewrite (createMetadata_unfold _ (spec_filter_coerce_strings m)).
  rewrite (Object_assign_rebuild [] (Object_assign [] m))
    by (apply (Object_assign_own_order m []), own_key_order_nil).
  reflexivity.
Qed.

Lemma cut_key_not_proto (k : jsstring) : k <> proto_key -> cut 40 k <> proto_key.
Proof.
  intros Hk E. apply Hk. apply (@cut_key_short 40); [vm_compute; lia | exact E].
Qed.


